(** * The Basic Iterative Method driver of [art/attacks/iterative_method.py]

    A shallow embedding of [BasicIterativeMethod]: its constructor, its
    [set_params] and its [generate] loop, followed by the properties of the
    driver that the specification states.

    Modelling conventions.
    - Python floats are rationals ([Q]); comparisons are exact, and NaN and
      the infinities are not represented.  [max_iter] may be an [int] or a
      [float], see [pynum].
    - A numpy array of samples is a [list X] of rows, [X] being the type of
      one input tensor.  The addition and the subtraction of rows are
      parameters of the development; they are instantiated with exact
      integer arithmetic and with binary64 rounding.  Arrays that the code shares or mutates in place
      ([x] and [adv_x]) live in a store of locations; temporaries produced
      by fancy indexing or by arithmetic are fresh values.
    - The classifier, the single-step perturber [_compute] inherited from
      [FastGradientMethod] and [art.utils.projection] are parameters of the
      development.  Every call to one of them is recorded in a log.
    - A Python exception is a value of type [error]; the state reached when
      it was raised is kept, as side effects are in Python.
    - A collaborator that returns a number of rows other than the number it
      was given breaks its contract; where numpy would then raise or
      broadcast, the model raises [ValueError_shape]. *)

From Stdlib Require Import QArith Qround Qabs.
From stdpp Require Import gmap list.

(** ** Numbers *)

(** A Python number as [max_iter] can receive it. *)
Inductive pynum : Type :=
  | PyInt (z : Z)
  | PyFloat (q : Q).

(** [a > b] on floats. *)
Definition py_gt (a b : Q) : bool := negb (Qle_bool a b).

(** [n <= 0]. *)
Definition py_le0 (n : pynum) : bool :=
  match n with
  | PyInt z => (z <=? 0)%Z
  | PyFloat q => Qle_bool q 0%Q
  end.

(** [n > 0] on a Python number. *)
Definition py_pos (n : pynum) : Prop :=
  match n with
  | PyInt z => (0 < z)%Z
  | PyFloat q => (0 < q)%Q
  end.

(** [int(n)]: identity on an [int], truncation towards zero on a [float]. *)
Definition py_int (n : pynum) : Z :=
  match n with
  | PyInt z => z
  | PyFloat q => (Qnum q ÷ Zpos (Qden q))%Z
  end.

(** ** Errors *)

Inductive error : Type :=
  | ValueError_norm        (* base class: norm order not in {inf, 1, 2} *)
  | ValueError_eps         (* base class: eps not positive *)
  | ValueError_eps_step    (* 'The iteration step `eps_step` has to be smaller ...' *)
  | ValueError_max_iter    (* 'The number of iterations `max_iter` has to be a positive integer.' *)
  | ValueError_targets     (* 'Target labels `y` need to be provided for a targeted attack.' *)
  | ValueError_argmax      (* numpy: argmax of an empty row *)
  | ValueError_shape       (* numpy: operands or assignment of different lengths *)
  | IndexError             (* numpy: index out of bounds *)
  | TypeError_range        (* range() applied to a float *)
  | ReferenceError.        (* a location that holds no array; no Python program reaches it *)

(** The errors of the specification's invalid-configuration category. *)
Definition invalid_configuration (e : error) : Prop :=
  e = ValueError_norm ∨ e = ValueError_eps ∨ e = ValueError_eps_step ∨
  e = ValueError_max_iter ∨ e = ValueError_targets.

(** The errors that numpy, [range] and the store raise while [generate]
    computes. *)
Definition runtime_error (e : error) : Prop :=
  e = ValueError_argmax ∨ e = ValueError_shape ∨ e = IndexError ∨
  e = TypeError_range ∨ e = ReferenceError.

(** ** Attack configuration *)

(** The order of the norm: [np.inf] or an integer. *)
Inductive norm_t : Type :=
  | NormInf
  | NormOrd (p : Z).

(** The attributes of a [BasicIterativeMethod] instance
    ([attack_params] of the base class plus [eps_step] and [max_iter]). *)
Record BasicIterativeMethod : Type := mkBIM {
  norm : norm_t;
  eps : Q;
  targeted : bool;
  random_init : bool;
  eps_step : Q;
  max_iter : pynum
}.

(** The keyword arguments of [generate] and [set_params].  A field is [None]
    when the key is absent; [kw_y = Some None] is an explicit [y=None]. *)
Record kwargs : Type := mkKw {
  kw_norm : option norm_t;
  kw_eps : option Q;
  kw_targeted : option bool;
  kw_random_init : option bool;
  kw_eps_step : option Q;
  kw_max_iter : option pynum;
  kw_y : option (option (list (list Q)))
}.

Definition no_kwargs : kwargs := mkKw None None None None None None None.

(** Modelled from the spec: the validation that [FastGradientMethod] runs in
    its constructor and in its [set_params] (art/attacks/fast_gradient.py is
    not among the sources).  The norm order is one of infinity, 1 and 2, and
    the budget is positive. *)
Definition fgm_validate (nrm : norm_t) (e : Q) : option error :=
  match nrm with
  | NormInf | NormOrd 1 | NormOrd 2 =>
      if Qle_bool e 0%Q then Some ValueError_eps else None
  | NormOrd _ => Some ValueError_norm
  end.

(** Modelled from the spec: the attribute update of the base [set_params],
    which stores every override whose key is in [attack_params]; [y] is not
    an attack parameter and is left to [generate]. *)
Definition apply_overrides (kw : kwargs) (c : BasicIterativeMethod) : BasicIterativeMethod :=
  {| norm := default (norm c) (kw_norm kw);
     eps := default (eps c) (kw_eps kw);
     targeted := default (targeted c) (kw_targeted kw);
     random_init := default (random_init c) (kw_random_init kw);
     eps_step := default (eps_step c) (kw_eps_step kw);
     max_iter := default (max_iter c) (kw_max_iter kw) |}.

(** The configurations that pass every check of [set_params]. *)
Definition valid_config (c : BasicIterativeMethod) : Prop :=
  fgm_validate (norm c) (eps c) = None ∧ (eps_step c <= eps c)%Q ∧
  py_pos (max_iter c).

(** [BasicIterativeMethod.__init__] (lines 33-59).  The call to the base
    constructor at line 50 is taken to run the base checks; the base class
    is not among the sources, and whether its constructor checks or only
    assigns cannot be read from them.  Where it matters, the theorems on the
    constructor take a norm and a budget that pass the base checks, for
    which the two readings agree. *)
Definition __init__ (nrm : norm_t) (e e_step : Q) (m_iter : pynum)
    (tgt rinit : bool) : error + BasicIterativeMethod :=
  match fgm_validate nrm e with
  | Some err => inl err
  | None =>
      if py_gt e_step e then inl ValueError_eps_step
      else if py_le0 m_iter then inl ValueError_max_iter
      else inr {| norm := nrm; eps := e; targeted := tgt; random_init := rinit;
                  eps_step := e_step; max_iter := PyInt (py_int m_iter) |}
  end.

(** ** numpy and label helpers *)

(** [a[idx]] with a list of indices: [None] stands for numpy's IndexError. *)
Definition gather {A : Type} (a : list A) (idx : list nat) : option (list A) :=
  mapM (λ i, a !! i) idx.

(** [a[idx] = vals], the rows written in index order. *)
Fixpoint scatter {A : Type} (idx : list nat) (vals : list A) (a : list A) : list A :=
  match idx, vals with
  | i :: idx', v :: vals' => scatter idx' vals' (<[i := v]> a)
  | _, _ => a
  end.

(** [np.argmax] of one row: the first position of the largest score. *)
Fixpoint argmax_from (best : Q) (besti i : nat) (row : list Q) : nat :=
  match row with
  | [] => besti
  | q :: row' =>
      if py_gt q best then argmax_from q i (S i) row'
      else argmax_from best besti (S i) row'
  end.

Definition argmax (row : list Q) : option nat :=
  match row with
  | [] => None
  | q :: row' => Some (argmax_from q 0 1 row')
  end.

(** [np.argmax(m, axis=1)]. *)
Definition argmax_axis1 (m : list (list Q)) : option (list nat) := mapM argmax m.

(** [to_categorical] of one label over [n] classes. *)
Definition one_hot (k n : nat) : list Q :=
  (λ j, if Nat.eqb j k then 1%Q else 0%Q) <$> seq 0 n.

(** Modelled from the spec: [art.utils.get_labels_np_array] (art/utils.py is
    not among the sources) takes the arg-max of every row of scores and
    one-hot encodes it. *)
Definition get_labels_np_array (preds : list (list Q)) : list (list Q) :=
  (λ row, match argmax row with
          | Some k => one_hot k (length row)
          | None => []
          end) <$> preds.

(** [np.where(a != b)[0]] for two vectors of the same length, positions
    counted from [j]. *)
Fixpoint np_where_ne (j : nat) (a b : list nat) : list nat :=
  match a, b with
  | u :: a', v :: b' =>
      if Nat.eqb u v then np_where_ne (S j) a' b' else j :: np_where_ne (S j) a' b'
  | _, _ => []
  end.

(** Lines 107-108 on values: the entries of [act] at the positions where the
    label [tl] and the prediction [am] differ. *)
Fixpoint keep (act tl am : list nat) : list nat :=
  match act, tl, am with
  | i :: act', t :: tl', p :: am' =>
      if Nat.eqb t p then keep act' tl' am' else i :: keep act' tl' am'
  | _, _, _ => []
  end.

(** ** The driver *)

Abbreviation loc := positive (only parsing).

Section Driver.

(** One input tensor, with numpy's elementwise [+] and [-] on it. *)
Variable X : Type.
Variable x_add x_sub : X → X → X.

(** The state of the random generator that [_compute] may draw from when
    [random_init] is set. *)
Variable G : Type.

(** [self.classifier.predict]: a batch of inputs to a matrix of scores,
    one row per input. *)
Variable predict : list X → list (list Q).

(** [self._compute(x, y, eps, random_init)], the single step inherited
    from [FastGradientMethod]; it reads the attributes of [self]. *)
Variable _compute :
  BasicIterativeMethod → G → list X → list (list Q) → Q → bool → list X * G.

(** [art.utils.projection(noise, eps, norm)]. *)
Variable projection : list X → Q → norm_t → list X.

(** Calls to the collaborators, in the order they are made. *)
Inductive event : Type :=
  | EvPredict (batch : list X)
  | EvCompute (batch : list X) (labels : list (list Q)) (step : Q) (rinit : bool)
  | EvProjection (noise : list X) (radius : Q) (ord : norm_t).

Definition is_predict (ev : event) : bool :=
  match ev with EvPredict _ => true | _ => false end.

Definition is_compute (ev : event) : bool :=
  match ev with EvCompute _ _ _ _ => true | _ => false end.

(** The store of arrays, the attack instance, the generator and the log. *)
Record state : Type := mkState {
  heap : gmap loc (list X);
  self : BasicIterativeMethod;
  rng : G;
  log : list event
}.

Definition with_heap (h : gmap loc (list X)) (s : state) : state :=
  mkState h (self s) (rng s) (log s).
Definition with_self (c : BasicIterativeMethod) (s : state) : state :=
  mkState (heap s) c (rng s) (log s).
Definition with_rng (g : G) (s : state) : state :=
  mkState (heap s) (self s) g (log s).
Definition emit (ev : event) (s : state) : state :=
  mkState (heap s) (self s) (rng s) (log s ++ [ev]).

(** *** State and error monad *)

Definition M (A : Type) : Type := state → state * (error + A).

Definition ret {A : Type} (a : A) : M A := λ s, (s, inr a).

Definition raise {A : Type} (e : error) : M A := λ s, (s, inl e).

Definition bind {A B : Type} (m : M A) (k : A → M B) : M B :=
  λ s, match m s with
       | (s', inr a) => k a s'
       | (s', inl e) => (s', inl e)
       end.

Notation "'let*' x ':=' m 'in' k" := (bind m (λ x, k))
  (at level 10, x name, m at level 100, k at level 200, only parsing).
Notation "m ';;;' k" := (bind m (λ _, k))
  (at level 100, k at level 200, right associativity, only parsing).

Definition get_self : M BasicIterativeMethod := λ s, (s, inr (self s)).

Definition put_self (c : BasicIterativeMethod) : M unit :=
  λ s, (with_self c s, inr tt).

(** An [option] whose [None] is the exception [e]. *)
Definition or_raise {A : Type} (e : error) (o : option A) : M A :=
  match o with
  | Some a => ret a
  | None => raise e
  end.

(** Raise [ValueError_shape] unless the two lengths agree. *)
Definition same_length {A B : Type} (a : list A) (b : list B) : M unit :=
  if Nat.eqb (length a) (length b) then ret tt else raise ValueError_shape.

(** *** Arrays in the store *)

(** The array a reference points to. *)
Definition deref (l : loc) : M (list X) :=
  λ s, match heap s !! l with
       | Some a => (s, inr a)
       | None => (s, inl ReferenceError)
       end.

(** [x.copy()]: a new array at a location not in use. *)
Definition np_copy (l : loc) : M loc :=
  let* a := deref l in
  λ s, let l' := fresh (dom (heap s)) in
       (with_heap (<[l' := a]> (heap s)) s, inr l').

(** [a[idx]]. *)
Definition getitem (l : loc) (idx : list nat) : M (list X) :=
  let* a := deref l in
  or_raise IndexError (gather a idx).

(** [a[idx] = vals], in place. *)
Definition setitem (l : loc) (idx : list nat) (vals : list X) : M unit :=
  let* a := deref l in
  if forallb (λ i, Nat.ltb i (length a)) idx then
    same_length idx vals;;;
    λ s, (with_heap (<[l := scatter idx vals a]> (heap s)) s, inr tt)
  else raise IndexError.

(** Elementwise [a - b] or [a + b] of two batches. *)
Definition elementwise (op : X → X → X) (a b : list X) : M (list X) :=
  same_length a b;;;
  ret (zip_with op a b).

(** *** Calls to the collaborators *)

Definition call_predict (batch : list X) : M (list (list Q)) :=
  λ s, (emit (EvPredict batch) s, inr (predict batch)).

Definition call_compute (batch : list X) (labels : list (list Q))
    (step : Q) (rinit : bool) : M (list X) :=
  λ s, let '(out, g) := _compute (self s) (rng s) batch labels step rinit in
       (emit (EvCompute batch labels step rinit) (with_rng g s), inr out).

Definition call_projection (noise : list X) (radius : Q) (ord : norm_t) : M (list X) :=
  λ s, (emit (EvProjection noise radius ord) s, inr (projection noise radius ord)).

(** *** [set_params] (lines 116-136) *)

(** The call to the base class's [set_params] at line 128: store the
    overrides, then run the base checks. *)
Definition fgm_set_params (kw : kwargs) : M bool :=
  let* c := get_self in
  put_self (apply_overrides kw c);;;
  let* c' := get_self in
  match fgm_validate (norm c') (eps c') with
  | Some err => raise err
  | None => ret true
  end.

Definition set_params (kw : kwargs) : M bool :=
  fgm_set_params kw;;;
  let* c := get_self in
  if py_gt (eps_step c) (eps c) then raise ValueError_eps_step
  else if py_le0 (max_iter c) then raise ValueError_max_iter
  else ret true.

(** *** [generate] (lines 61-114) *)

(** Lines 86-94: the labels the attack works with. *)
Definition resolve_targets (x : loc) (y : option (option (list (list Q))))
    : M (list (list Q)) :=
  match y with
  | None | Some None =>
      let* c := get_self in
      if targeted c then raise ValueError_targets
      else
        let* xs := deref x in
        let* preds := call_predict xs in
        ret (get_labels_np_array preds)
  | Some (Some targets) => ret targets
  end.

(** What one iteration leaves behind: the active indices it started from,
    the whole of [adv_x] after line 103, the predictions of line 104 and
    the active indices of line 108. *)
Record iteration : Type := mkIter {
  it_active_in : list nat;
  it_adv : list X;
  it_preds : list (list Q);
  it_active_out : list nat
}.

(** Lines 100-108: the body of the loop. *)
Definition bim_step (x adv_x : loc) (targets : list (list Q))
    (target_labels : list nat) (active_indices : list nat) : M iteration :=
  (* line 100 *)
  let* cur := getitem adv_x active_indices in
  let* tg := or_raise IndexError (gather targets active_indices) in
  let* c := get_self in
  let* stepped := call_compute cur tg (eps_step c) (random_init c) in
  setitem adv_x active_indices stepped;;;
  (* line 102 *)
  let* cur' := getitem adv_x active_indices in
  let* orig := getitem x active_indices in
  let* diff := elementwise x_sub cur' orig in
  let* c' := get_self in
  let* noise := call_projection diff (eps c') (norm c') in
  (* line 103 *)
  let* orig' := getitem x active_indices in
  let* moved := elementwise x_add orig' noise in
  setitem adv_x active_indices moved;;;
  (* line 104 *)
  let* batch := getitem adv_x active_indices in
  let* adv_preds := call_predict batch in
  (* line 107 *)
  let* tl := or_raise IndexError (gather target_labels active_indices) in
  let* am := or_raise ValueError_argmax (argmax_axis1 adv_preds) in
  same_length tl am;;;
  let active_subindices := np_where_ne 0 tl am in
  (* line 108 *)
  let* active' := or_raise IndexError (gather active_indices active_subindices) in
  let* snapshot := deref adv_x in
  ret (mkIter active_indices snapshot adv_preds active').

(** Lines 98-112: at most [n] iterations, left as soon as no index is
    active.  The result lists the iterations that ran. *)
Fixpoint bim_loop (n : nat) (x adv_x : loc) (targets : list (list Q))
    (target_labels : list nat) (active_indices : list nat) : M (list iteration) :=
  match n with
  | O => ret []
  | S n' =>
      let* it := bim_step x adv_x targets target_labels active_indices in
      if Nat.eqb (length (it_active_out it)) 0 then ret [it]
      else
        let* rest := bim_loop n' x adv_x targets target_labels (it_active_out it) in
        ret (it :: rest)
  end.

(** [range(self.max_iter)]: the number of iterations of the [for]. *)
Definition py_range (n : pynum) : M nat :=
  match n with
  | PyInt z => ret (Z.to_nat z)
  | PyFloat _ => raise TypeError_range
  end.

(** [generate], returning with [adv_x] the iterations that ran. *)
Definition generate_trace (x : loc) (kw : kwargs) : M (loc * list iteration) :=
  set_params kw;;;
  let* adv_x := np_copy x in
  let* targets := resolve_targets x (kw_y kw) in
  let* target_labels := or_raise ValueError_argmax (argmax_axis1 targets) in
  let* adv := deref adv_x in
  let active_indices := seq 0 (length adv) in
  let* c := get_self in
  let* n := py_range (max_iter c) in
  let* its := bim_loop n x adv_x targets target_labels active_indices in
  ret (adv_x, its).

(** [generate] as the caller sees it. *)
Definition generate (x : loc) (kw : kwargs) : M loc :=
  let* r := generate_trace x kw in
  ret (fst r).

(** *** Vocabulary for the runs of the loop *)

(** The labels that lines 86-94 settle on, as a function of the call. *)
Definition targets_of (kw : kwargs) (xs : list X) : list (list Q) :=
  match kw_y kw with
  | Some (Some y) => y
  | _ => get_labels_np_array (predict xs)
  end.

(** Whether the call passes labels: [y] present and not [None]. *)
Definition labels_supplied (kw : kwargs) : bool :=
  match kw_y kw with
  | Some (Some _) => true
  | _ => false
  end.

(** The classifier queries that label resolution makes on the batch [xs]. *)
Definition label_events (kw : kwargs) (xs : list X) : list event :=
  if labels_supplied kw then [] else [EvPredict xs].

(** The active indices when iteration [k] starts, [act] being those the
    loop was entered with. *)
Definition active_before (act : list nat) (its : list iteration) (k : nat) : list nat :=
  match k with
  | O => act
  | S k' => match its !! k' with
            | Some it => it_active_out it
            | None => []
            end
  end.

(** The active indices when the loop is left. *)
Definition final_active (act : list nat) (its : list iteration) : list nat :=
  match last its with
  | Some it => it_active_out it
  | None => act
  end.

(** The number of classifier queries, and of perturber calls, in a log. *)
Definition count_predict (evs : list event) : nat :=
  length (List.filter is_predict evs).

Definition count_compute (evs : list event) : nat :=
  length (List.filter is_compute evs).

(** What one iteration does to [adv_x], entered with contents [a] and active
    indices [act], for the attack [c], the original batch [xs] and the label
    of every sample [tls]. *)
Record step_ok (c : BasicIterativeMethod) (xs : list X) (tls : list nat)
    (a : list X) (act : list nat) (it : iteration) : Prop := mkStepOk {
  so_active_in : it_active_in it = act;
  so_length : length (it_adv it) = length a;
  so_frame : ∀ i, i ∉ act → it_adv it !! i = a !! i;
  so_moved : ∀ i, i ∈ act →
    ∃ xi d n, xs !! i = Some xi ∧ n ∈ projection d (eps c) (norm c) ∧
              it_adv it !! i = Some (x_add xi n);
  so_select : ∃ batch tl am,
    gather (it_adv it) act = Some batch ∧ it_preds it = predict batch ∧
    gather tls act = Some tl ∧ argmax_axis1 (it_preds it) = Some am ∧
    length tl = length am ∧ it_active_out it = keep act tl am
}.

(** The computation [m] leaves the array at [l] as it is, whatever its
    outcome. *)
Definition keeps {A : Type} (l : loc) (m : M A) : Prop :=
  ∀ s s' r, m s = (s', r) → heap s' !! l = heap s !! l.

(** In a log, every label matrix handed to the perturber is made of rows of
    [targets]. *)
Definition labels_from (targets : list (list Q)) (ev : event) : Prop :=
  match ev with
  | EvCompute _ labels _ _ => ∃ idx, gather targets idx = Some labels
  | _ => True
  end.

(** Every row of [a] is its original plus a row that [projection] returned. *)
Definition anchored (c : BasicIterativeMethod) (xs a : list X) : Prop :=
  ∀ i xi oi, xs !! i = Some xi → a !! i = Some oi →
    ∃ d n, n ∈ projection d (eps c) (norm c) ∧ oi = x_add xi n.

(** The contract of the projection primitive for the attack [c], [in_ball]
    being the ball of a given radius and norm order: every row that
    [projection] returns lies in the ball of the configured radius and norm. *)
Definition projects_into_ball (in_ball : Q → norm_t → X → Prop)
    (c : BasicIterativeMethod) : Prop :=
  ∀ d, Forall (in_ball (eps c) (norm c)) (projection d (eps c) (norm c)).

(** The iterations of one run of the loop, from contents [a] and active
    indices [act] to the final contents. *)
Inductive run_ok (c : BasicIterativeMethod) (xs : list X) (tls : list nat)
    : list X → list nat → list iteration → list X → Prop :=
  | run_nil a act : run_ok c xs tls a act [] a
  | run_cons a act it rest a' :
      step_ok c xs tls a act it →
      (it_active_out it = [] → rest = []) →
      run_ok c xs tls (it_adv it) (it_active_out it) rest a' →
      run_ok c xs tls a act (it :: rest) a'.

(** The computation [m] leaves the component [f] of the state as it is,
    whatever its outcome. *)
Definition preserves {A B : Type} (f : state → B) (m : M A) : Prop :=
  ∀ s s' r, m s = (s', r) → f s' = f s.

(** The computation [m] raises errors of the class [P] only. *)
Definition raises_only {A : Type} (P : error → Prop) (m : M A) : Prop :=
  ∀ s s' e, m s = (s', inl e) → P e.

(** The three calls that one iteration makes for the attack [c]: the
    perturber on the active rows with their labels, the configured step and
    the random-init flag; the projection with the configured budget and
    norm; the classifier on the active rows of [adv_x]. *)
Definition iteration_calls (c : BasicIterativeMethod) (targets : list (list Q))
    (it : iteration) (evs : list event) : Prop :=
  ∃ cur tg d batch,
    evs = [EvCompute cur tg (eps_step c) (random_init c);
           EvProjection d (eps c) (norm c);
           EvPredict batch] ∧
    length cur = length (it_active_in it) ∧
    gather targets (it_active_in it) = Some tg ∧
    length d = length (it_active_in it) ∧
    gather (it_adv it) (it_active_in it) = Some batch.

(** The calls of a whole run of the loop, iteration after iteration. *)
Inductive loop_calls (c : BasicIterativeMethod) (targets : list (list Q))
    : list iteration → list event → Prop :=
  | loop_calls_nil : loop_calls c targets [] []
  | loop_calls_cons it rest evs1 evs2 :
      iteration_calls c targets it evs1 →
      loop_calls c targets rest evs2 →
      loop_calls c targets (it :: rest) (evs1 ++ evs2).

End Driver.

Arguments heap {X G} s.
Arguments self {X G} s.
Arguments rng {X G} s.
Arguments log {X G} s.
Arguments with_heap {X G} h s.
Arguments with_self {X G} c s.
Arguments with_rng {X G} g s.
Arguments emit {X G} ev s.
Arguments EvPredict {X} batch.
Arguments EvCompute {X} batch labels step rinit.
Arguments EvProjection {X} noise radius ord.
Arguments is_predict {X} ev.
Arguments is_compute {X} ev.
Arguments it_active_in {X} i.
Arguments it_adv {X} i.
Arguments it_preds {X} i.
Arguments it_active_out {X} i.
Arguments active_before {X} act its k.
Arguments final_active {X} act its.
Arguments count_predict {X} evs.
Arguments count_compute {X} evs.
Arguments label_events {X} kw xs.
Arguments labels_from {X} targets ev.
Arguments iteration_calls {X} c targets it evs.
Arguments loop_calls {X} c targets its evs.

(** ** A small instance

    Inputs are single numbers counted in tenths, so that the budget 0.3 is
    three units and the step 0.1 is one.  The classifier has two classes and
    answers class 1 from 0.2 on; the perturber adds one step to every row;
    the projection clips every row to the ball. *)

Definition demo_predict (batch : list Z) : list (list Q) :=
  (λ v, if (2 <=? v)%Z then [0%Q; 1%Q] else [1%Q; 0%Q]) <$> batch.

Definition demo_compute (c : BasicIterativeMethod) (g : unit) (batch : list Z)
    (labels : list (list Q)) (step : Q) (rinit : bool) : list Z * unit :=
  ((λ v, v + Qfloor (10 * step))%Z <$> batch, g).

Definition demo_projection (noise : list Z) (radius : Q) (ord : norm_t) : list Z :=
  (λ v, Z.max (- Qfloor (10 * radius)) (Z.min (Qfloor (10 * radius)) v)) <$> noise.

(** The ball: a row of [v] tenths is within [radius]. *)
Definition demo_in_ball (radius : Q) (ord : norm_t) (v : Z) : Prop :=
  (Z.abs v # 10 <= radius)%Q.

Definition demo_state := state Z unit.

Definition demo_generate_trace : loc → kwargs → demo_state →
    demo_state * (error + (loc * list (iteration Z))) :=
  generate_trace Z Z.add Z.sub unit demo_predict demo_compute demo_projection.

Definition demo_generate : loc → kwargs → demo_state → demo_state * (error + loc) :=
  generate Z Z.add Z.sub unit demo_predict demo_compute demo_projection.

(** An untargeted attack with budget 0.3, step 0.1 and three iterations. *)
Definition demo_attack : BasicIterativeMethod :=
  mkBIM NormInf (3 # 10) false false (1 # 10) (PyInt 3).

(** The caller's batch of four samples is the array at location 1. *)
Definition demo_x : list Z := [0; 5; 0; 1]%Z.

Definition demo_s0 : demo_state :=
  mkState Z unit {[ 1%positive := demo_x ]} demo_attack tt [].

(** The same attack, targeted. *)
Definition demo_s0_targeted : demo_state :=
  mkState Z unit {[ 1%positive := demo_x ]}
    (mkBIM NormInf (3 # 10) true false (1 # 10) (PyInt 3)) tt [].

(** A batch of two samples, and labels that are the opposite of what the
    classifier answers after one step. *)
Definition demo_pair : demo_state :=
  mkState Z unit {[ 1%positive := [0; 5]%Z ]} demo_attack tt [].

Definition demo_opposite : kwargs :=
  mkKw None None None None None None (Some (Some [[0%Q; 1%Q]; [1%Q; 0%Q]])).

(** The three runs used below, evaluated: the caller's batch without
    labels, the pair without labels, and the pair with the opposite labels. *)
Definition demo_run : demo_state * (error + (loc * list (iteration Z))) :=
  Eval vm_compute in demo_generate_trace 1%positive no_kwargs demo_s0.

Definition demo_run_pair : demo_state * (error + (loc * list (iteration Z))) :=
  Eval vm_compute in demo_generate_trace 1%positive no_kwargs demo_pair.

Definition demo_run_opposite : demo_state * (error + (loc * list (iteration Z))) :=
  Eval vm_compute in demo_generate_trace 1%positive demo_opposite demo_pair.

(** The first iteration of [demo_run]. *)
Definition demo_it0 : iteration Z :=
  mkIter Z [0; 1; 2; 3] [1; 6; 1; 2]%Z
    [[1%Q; 0%Q]; [0%Q; 1%Q]; [1%Q; 0%Q]; [0%Q; 1%Q]] [3].

(** The first iteration of [demo_run_opposite]. *)
Definition demo_opposite_it0 : iteration Z :=
  mkIter Z [0; 1] [1; 6]%Z [[1%Q; 0%Q]; [0%Q; 1%Q]] [0; 1].

(** An override of the step size that exceeds the budget. *)
Definition demo_big_step : kwargs :=
  mkKw None None None None (Some (5 # 10)) None None.

(** The attack that the constructor builds from [max_iter = 0.5], and a
    state in which [generate] is called on it. *)
Definition demo_attack_half : BasicIterativeMethod :=
  mkBIM NormInf (3 # 10) false false (1 # 10) (PyInt 0).

Definition demo_s0_half : demo_state :=
  mkState Z unit {[ 1%positive := demo_x ]} demo_attack_half tt [].

(** An override of [max_iter] with the float 2.5. *)
Definition demo_float_iter : kwargs :=
  mkKw None None None None None (Some (PyFloat (5 # 2))) None.

(** A single row of labels, one fewer than the pair has samples. *)
Definition demo_one_label : kwargs :=
  mkKw None None None None None None (Some (Some [[1%Q; 0%Q]])).

(** An empty batch at location 1. *)
Definition demo_empty : demo_state :=
  mkState Z unit {[ 1%positive := [] ]} demo_attack tt [].

(** The iterations of a run that returned. *)
Definition iterations_of {X G : Type}
    (r : state X G * (error + (loc * list (iteration X)))) : list (iteration X) :=
  match r.2 with
  | inr (_, its) => its
  | inl _ => []
  end.

(** ** An instance with binary64 inputs

    numpy computes on IEEE 754 binary64 numbers: the sum and the difference
    of two of them are the exact results rounded to the nearest number with
    a mantissa of 53 bits, ties to the even mantissa.  The numbers are kept
    as the rationals they denote; exponents stay far from the subnormal and
    overflow ranges, which are not represented. *)

(** The nearest integer, ties to the even one. *)
Definition round_half_even (q : Q) : Z :=
  let f := Qfloor q in
  match (q - inject_Z f ?= 1 # 2)%Q with
  | Lt => f
  | Gt => (f + 1)%Z
  | Eq => if Z.even f then f else (f + 1)%Z
  end.

(** Rounding of a positive rational: scale it into [2^52, 2^53), round the
    mantissa, scale back. *)
Definition b64_round_pos (a : Q) : Q :=
  let e0 := (Z.log2 (Qnum a) - Z.log2 (Z.pos (Qden a)) - 52)%Z in
  let e := if Qle_bool (2 ^ 52) (a / 2 ^ e0) then e0 else (e0 - 1)%Z in
  Qred (inject_Z (round_half_even (a / 2 ^ e)) * 2 ^ e).

Definition b64_round (q : Q) : Q :=
  match Qnum q with
  | Z0 => 0%Q
  | Z.pos _ => b64_round_pos q
  | Z.neg _ => Qred (- b64_round_pos (- q))
  end.

(** numpy's [+] and [-] on two binary64 numbers. *)
Definition b64_add (a b : Q) : Q := b64_round (a + b).
Definition b64_sub (a b : Q) : Q := b64_round (a - b).

(** A classifier with two classes that answers class 1 from 0.35 on, a
    perturber that adds the step to every row, the projection on the
    infinity-norm ball, which clips every row to [-radius, radius], and that
    ball. *)
Definition b64_predict (batch : list Q) : list (list Q) :=
  (λ v, if Qle_bool (35 # 100) v then [0%Q; 1%Q] else [1%Q; 0%Q]) <$> batch.

Definition b64_compute (c : BasicIterativeMethod) (g : unit) (batch : list Q)
    (labels : list (list Q)) (step : Q) (rinit : bool) : list Q * unit :=
  ((λ v, b64_add v step) <$> batch, g).

Definition b64_clip (radius v : Q) : Q :=
  if Qle_bool radius v then radius
  else if Qle_bool v (- radius) then (- radius)%Q
  else v.

Definition b64_projection (noise : list Q) (radius : Q) (ord : norm_t) : list Q :=
  b64_clip radius <$> noise.

Definition b64_in_ball (radius : Q) (ord : norm_t) (v : Q) : Prop :=
  (Qabs v <= radius)%Q.

(** A targeted attack with budget 0.3, step 0.1 and three iterations, as
    binary64 numbers, on the one sample 0.1 with target class 1. *)
Definition b64_attack : BasicIterativeMethod :=
  mkBIM NormInf (b64_round (3 # 10)) true false (b64_round (1 # 10)) (PyInt 3).

Definition b64_target : kwargs :=
  mkKw None None None None None None (Some (Some [[0%Q; 1%Q]])).

Definition b64_s0 : state Q unit :=
  mkState Q unit {[ 1%positive := [b64_round (1 # 10)] ]} b64_attack tt [].

Definition b64_run : state Q unit * (error + (loc * list (iteration Q))) :=
  Eval vm_compute in
    generate_trace Q b64_add b64_sub unit b64_predict b64_compute b64_projection
      1%positive b64_target b64_s0.

(** * Properties *)

(** ** Comparisons *)

Lemma py_gt_true (a b : Q) : py_gt a b = true ↔ (b < a)%Q.
Proof.
  unfold py_gt. rewrite negb_true_iff, <- not_true_iff_false, Qle_bool_iff.
  split; [apply Qnot_le_lt | apply Qlt_not_le].
Qed.

Lemma py_gt_false (a b : Q) : py_gt a b = false ↔ (a <= b)%Q.
Proof.
  unfold py_gt. rewrite negb_false_iff. apply Qle_bool_iff.
Qed.

Lemma py_le0_false (n : pynum) : py_le0 n = false ↔ py_pos n.
Proof.
  destruct n as [z|q]; simpl.
  - rewrite Z.leb_gt. reflexivity.
  - rewrite <- not_true_iff_false, Qle_bool_iff.
    split; [apply Qnot_le_lt | apply Qlt_not_le].
Qed.

Lemma py_le0_true (n : pynum) : py_le0 n = true ↔ ¬ py_pos n.
Proof.
  rewrite <- py_le0_false. destruct (py_le0 n); split; congruence.
Qed.

(** The base checks raise invalid-configuration errors only. *)
Lemma fgm_validate_invalid nrm e err :
  fgm_validate nrm e = Some err → invalid_configuration err.
Proof.
  unfold fgm_validate, invalid_configuration.
  destruct nrm as [|[|[p|p|]|]]; try destruct p; destruct (Qle_bool e 0);
    intros [= <-]; auto.
Qed.

(** ** Indexing *)

Section Indexing.
Context {A : Type}.
Implicit Types (a vals : list A) (idx : list nat).

Lemma gather_Some a idx v :
  gather a idx = Some v ↔ Forall2 (λ i y, a !! i = Some y) idx v.
Proof. apply mapM_Some. Qed.

Lemma gather_length a idx v : gather a idx = Some v → length v = length idx.
Proof. intros H. symmetry. exact (length_mapM _ _ _ H). Qed.

Lemma gather_lookup a idx v j i :
  gather a idx = Some v → idx !! j = Some i → v !! j = a !! i.
Proof.
  rewrite gather_Some. intros HF Hj.
  destruct (Forall2_lookup_l _ _ _ _ _ HF Hj) as (y & Hy & Hay). congruence.
Qed.

Lemma gather_in_range a idx v :
  gather a idx = Some v → Forall (λ i, i < length a) idx.
Proof.
  rewrite gather_Some. intros HF. apply Forall_forall. intros i Hi.
  apply list_elem_of_lookup in Hi as [j Hj].
  destruct (Forall2_lookup_l _ _ _ _ _ HF Hj) as (y & _ & Hay).
  eapply lookup_lt_Some, Hay.
Qed.

(** Indexing with [range(len(a))] reads the whole array. *)
Lemma gather_seq_from pre a :
  gather (pre ++ a) (seq (length pre) (length a)) = Some a.
Proof.
  revert pre. induction a as [|y a IH]; intros pre; [reflexivity|].
  apply gather_Some. simpl. constructor.
  - apply list_lookup_middle. reflexivity.
  - apply gather_Some. specialize (IH (pre ++ [y])).
    rewrite length_app, <- app_assoc in IH. simpl in IH.
    replace (length pre + 1) with (S (length pre)) in IH by lia. exact IH.
Qed.

Lemma gather_seq a : gather a (seq 0 (length a)) = Some a.
Proof. exact (gather_seq_from [] a). Qed.

Lemma length_scatter idx vals a : length (scatter idx vals a) = length a.
Proof.
  revert vals a. induction idx as [|i idx IH]; intros [|v vals] a; simpl; try done.
  rewrite IH. apply length_insert.
Qed.

(** Rows whose index is not assigned keep their value. *)
Lemma scatter_lookup_notin idx vals a i :
  i ∉ idx → scatter idx vals a !! i = a !! i.
Proof.
  revert vals a. induction idx as [|i0 idx IH]; intros [|v vals] a Hi; simpl; try done.
  apply not_elem_of_cons in Hi as [Hne Hi].
  rewrite IH by done. apply list_lookup_insert_ne. congruence.
Qed.

(** An assigned row holds one of the values assigned to it. *)
Lemma scatter_lookup_in idx vals a i :
  length idx = length vals → i ∈ idx → i < length a →
  ∃ j v, idx !! j = Some i ∧ vals !! j = Some v ∧ scatter idx vals a !! i = Some v.
Proof.
  revert vals a. induction idx as [|i0 idx IH]; intros [|v vals] a Hlen Hi Hlt;
    simpl in *; try done.
  { by apply elem_of_nil in Hi. }
  destruct (decide (i ∈ idx)) as [Hin|Hnin].
  - destruct (IH vals (<[i0 := v]> a)) as (j & w & Hj & Hw & Hs); [lia|done| |].
    { by rewrite length_insert. }
    exists (S j), w. done.
  - apply elem_of_cons in Hi as [->|Hi]; [|done].
    exists 0, v. split_and!; [done..|].
    rewrite scatter_lookup_notin by done. by apply list_lookup_insert_eq.
Qed.

(** Without repeated indices the assigned rows can be read back. *)
Lemma gather_scatter idx vals a :
  NoDup idx → length idx = length vals → Forall (λ i, i < length a) idx →
  gather (scatter idx vals a) idx = Some vals.
Proof.
  revert vals a. induction idx as [|i0 idx IH]; intros [|v vals] a Hnd Hlen Hr;
    simpl in Hlen; try done.
  apply NoDup_cons in Hnd as [Hnin Hnd]. apply Forall_cons in Hr as [Hlt Hr].
  apply gather_Some. simpl. constructor.
  - rewrite scatter_lookup_notin by done. by apply list_lookup_insert_eq.
  - apply gather_Some, IH; [done|lia|].
    rewrite length_insert. exact Hr.
Qed.

(** Assigning through [range(len(a))] replaces the whole array. *)
Lemma scatter_seq_from pre a vals :
  length vals = length a →
  scatter (seq (length pre) (length a)) vals (pre ++ a) = pre ++ vals.
Proof.
  revert pre vals. induction a as [|y a IH]; intros pre [|v vals] Hlen;
    simpl in *; try done.
  assert (<[length pre := v]> (pre ++ y :: a) = pre ++ v :: a) as ->.
  { rewrite <- (Nat.add_0_r (length pre)). by rewrite insert_app_r. }
  specialize (IH (pre ++ [v]) vals).
  rewrite length_app, <- !app_assoc in IH. simpl in IH.
  replace (length pre + 1) with (S (length pre)) in IH by lia.
  apply IH. lia.
Qed.

Lemma scatter_seq a vals :
  length vals = length a → scatter (seq 0 (length a)) vals a = vals.
Proof. exact (scatter_seq_from [] a vals). Qed.

(** Indexing with [range(n)] reads the first [n] rows. *)
Lemma gather_seq_take a n v : gather a (seq 0 n) = Some v → v = take n a.
Proof.
  intros H. apply list_eq. intros i.
  pose proof (gather_length _ _ _ H) as Hlen. rewrite length_seq in Hlen.
  destruct (decide (i < n)) as [Hlt|Hge].
  - rewrite lookup_take_lt by done.
    by rewrite (gather_lookup _ _ _ i i H) by by rewrite lookup_seq_lt.
  - rewrite lookup_take_ge by lia. apply lookup_ge_None. lia.
Qed.

End Indexing.


(** ** Selection of the active indices *)

Lemma gather_where_from (pre act tl am : list nat) :
  length act = length tl → length tl = length am →
  gather (pre ++ act) (np_where_ne (length pre) tl am) = Some (keep act tl am).
Proof.
  revert pre tl am.
  induction act as [|i act IH]; intros pre [|t tl] [|p am] Hl1 Hl2;
    simpl in Hl1, Hl2; try done.
  specialize (IH (pre ++ [i]) tl am).
  rewrite length_app, <- app_assoc in IH. simpl in IH.
  replace (length pre + 1) with (S (length pre)) in IH by lia.
  simpl. destruct (Nat.eqb t p).
  - apply IH; lia.
  - apply gather_Some. constructor.
    + apply list_lookup_middle. reflexivity.
    + apply gather_Some, IH; lia.
Qed.

Lemma gather_where (act tl am : list nat) :
  length act = length tl → length tl = length am →
  gather act (np_where_ne 0 tl am) = Some (keep act tl am).
Proof. exact (gather_where_from [] act tl am). Qed.

Lemma keep_sublist (act tl am : list nat) : keep act tl am `sublist_of` act.
Proof.
  revert tl am. induction act as [|i act IH]; intros [|t tl] [|p am]; simpl;
    try apply sublist_nil_l.
  destruct (Nat.eqb t p).
  - apply sublist_cons, IH.
  - apply sublist_skip, IH.
Qed.

Lemma keep_same (act tl : list nat) : keep act tl tl = [].
Proof.
  revert tl. induction act as [|i act IH]; intros [|t tl]; simpl; try done.
  by rewrite Nat.eqb_refl.
Qed.

(** Position [j] of the active indices survives exactly when label and
    prediction differ there. *)
Lemma keep_elem_of (act tl am : list nat) (j i t p : nat) :
  NoDup act → act !! j = Some i → tl !! j = Some t → am !! j = Some p →
  i ∈ keep act tl am ↔ t ≠ p.
Proof.
  revert tl am j.
  induction act as [|i0 act IH]; intros [|t0 tl] [|p0 am] j Hnd Hi Ht Hp; try done.
  apply NoDup_cons in Hnd as [Hnin Hnd]. simpl.
  assert (Hsub : ∀ k, k ∈ keep act tl am → k ∈ act).
  { intros k Hk. eapply elem_of_sublist; [exact Hk | apply keep_sublist]. }
  destruct j as [|j]; simpl in Hi, Ht, Hp.
  - injection Hi as ->. injection Ht as ->. injection Hp as ->.
    destruct (Nat.eqb_spec t p) as [->|Hne].
    + split; [intros Hk; destruct Hnin; auto | done].
    + split; [done | intros _; apply elem_of_cons; by left].
  - assert (i ≠ i0).
    { intros ->. apply Hnin. eapply list_elem_of_lookup_2, Hi. }
    destruct (Nat.eqb t0 p0).
    + by apply (IH tl am j).
    + rewrite elem_of_cons. rewrite (IH tl am j) by done.
      split; [intros [?|?]; done | by right].
Qed.

(** ** Running the driver *)

Section DriverFacts.

Variable X : Type.
Variable x_add x_sub : X → X → X.
Variable G : Type.
Variable predict : list X → list (list Q).
Variable _compute :
  BasicIterativeMethod → G → list X → list (list Q) → Q → bool → list X * G.
Variable projection : list X → Q → norm_t → list X.

Local Abbreviation state := (state X G).
Local Abbreviation event := (event X).
Local Abbreviation iteration := (iteration X).
Local Abbreviation M := (M X G).
Local Abbreviation set_params := (set_params X G).
Local Abbreviation fgm_set_params := (fgm_set_params X G).
Local Abbreviation resolve_targets := (resolve_targets X G predict).
Local Abbreviation bim_step := (bim_step X x_add x_sub G predict _compute projection).
Local Abbreviation bim_loop := (bim_loop X x_add x_sub G predict _compute projection).
Local Abbreviation generate_trace :=
  (generate_trace X x_add x_sub G predict _compute projection).
Local Abbreviation targets_of := (targets_of X predict).
Local Abbreviation step_ok := (step_ok X x_add predict projection).
Local Abbreviation run_ok := (run_ok X x_add predict projection).
Local Abbreviation anchored := (anchored X x_add projection).
Local Abbreviation keeps := (keeps X G).
Local Abbreviation projects_into_ball := (projects_into_ball X projection).
Local Abbreviation preserves := (preserves X G).
Local Abbreviation raises_only := (raises_only X G).
Local Abbreviation generate := (generate X x_add x_sub G predict _compute projection).

Implicit Types (s : state) (x adv_x : loc) (a xs : list X) (act idx : list nat).

(** *** Inversion of successful runs *)

Lemma bind_ok {A B : Type} (m : M A) (k : A → M B) s s' (b : B) :
  bind X G m k s = (s', inr b) →
  ∃ s1 v, m s = (s1, inr v) ∧ k v s1 = (s', inr b).
Proof.
  unfold bind. destruct (m s) as [s1 [e|v]]; [done|]. intros H. by exists s1, v.
Qed.

Lemma bind_err {A B : Type} (m : M A) (k : A → M B) s s' (e : error) :
  bind X G m k s = (s', inl e) →
  m s = (s', inl e) ∨ ∃ s1 v, m s = (s1, inr v) ∧ k v s1 = (s', inl e).
Proof.
  unfold bind. destruct (m s) as [s1 [e1|v]]; intros H.
  - left. by injection H as -> ->.
  - right. by exists s1, v.
Qed.

Lemma ret_ok {A : Type} (v w : A) s s' :
  ret X G v s = (s', inr w) → s' = s ∧ w = v.
Proof. unfold ret. by intros [= -> ->]. Qed.

Lemma get_self_ok s s' c :
  get_self X G s = (s', inr c) → s' = s ∧ c = self s.
Proof. unfold get_self. by intros [= -> ->]. Qed.

Lemma or_raise_ok {A : Type} (e : error) (o : option A) s s' (v : A) :
  or_raise X G e o s = (s', inr v) → s' = s ∧ o = Some v.
Proof. destruct o; simpl; unfold ret, raise; [by intros [= -> ->] | done]. Qed.

Lemma same_length_ok {A B : Type} (l : list A) (k : list B) s s' u :
  same_length X G l k s = (s', inr u) → s' = s ∧ length l = length k.
Proof.
  unfold same_length. destruct (Nat.eqb_spec (length l) (length k));
    unfold ret, raise; [by intros [= ->] | done].
Qed.

Lemma deref_ok x s s' a :
  deref X G x s = (s', inr a) → s' = s ∧ heap s !! x = Some a.
Proof. unfold deref. destruct (heap s !! x); [by intros [= -> ->] | done]. Qed.

Lemma getitem_ok x idx s s' v :
  getitem X G x idx s = (s', inr v) →
  s' = s ∧ ∃ a, heap s !! x = Some a ∧ gather a idx = Some v.
Proof.
  unfold getitem. intros H.
  apply bind_ok in H as (s1 & a & Hd & H).
  apply deref_ok in Hd as [-> Hd]. apply or_raise_ok in H as [-> H]. eauto.
Qed.

Lemma setitem_ok x idx vals s s' u :
  setitem X G x idx vals s = (s', inr u) →
  ∃ a, heap s !! x = Some a ∧ Forall (λ i, i < length a) idx ∧
       length idx = length vals ∧
       s' = with_heap (<[x := scatter idx vals a]> (heap s)) s.
Proof.
  unfold setitem. intros H.
  apply bind_ok in H as (s1 & a & Hd & H). apply deref_ok in Hd as [-> Hd].
  destruct (forallb _ idx) eqn:Hb; [|done].
  apply bind_ok in H as (s1 & [] & Hl & H). apply same_length_ok in Hl as [-> Hl].
  injection H as <-. exists a. split_and!; try done.
  apply Forall_forall. intros i Hi. rewrite forallb_forall in Hb.
  apply Nat.ltb_lt, Hb. by apply list_elem_of_In.
Qed.

Lemma elementwise_ok (op : X → X → X) (l k : list X) s s' v :
  elementwise X G op l k s = (s', inr v) →
  s' = s ∧ length l = length k ∧ v = zip_with op l k.
Proof.
  unfold elementwise. intros H.
  apply bind_ok in H as (s1 & [] & Hl & H). apply same_length_ok in Hl as [-> Hl].
  apply ret_ok in H as [-> ->]. done.
Qed.

Lemma call_predict_ok batch s s' v :
  call_predict X G predict batch s = (s', inr v) →
  s' = emit (EvPredict batch) s ∧ v = predict batch.
Proof. unfold call_predict. by intros [= <- <-]. Qed.

Lemma call_projection_ok noise r o s s' v :
  call_projection X G projection noise r o s = (s', inr v) →
  s' = emit (EvProjection noise r o) s ∧ v = projection noise r o.
Proof. unfold call_projection. by intros [= <- <-]. Qed.

Lemma call_compute_ok batch labels step rinit s s' v :
  call_compute X G _compute batch labels step rinit s = (s', inr v) →
  ∃ g, _compute (self s) (rng s) batch labels step rinit = (v, g) ∧
       s' = emit (EvCompute batch labels step rinit) (with_rng g s).
Proof.
  unfold call_compute. destruct (_compute _ _ _ _ _ _) as [out g].
  intros [= <- <-]. by exists g.
Qed.

(** One successful pass through the loop body, line by line. *)
Lemma bim_step_inv x adv_x targets tls act s s' (it : iteration) :
  x ≠ adv_x →
  bim_step x adv_x targets tls act s = (s', inr it) →
  ∃ a xs cur tg stepped g cur' orig noise batch tl am,
    heap s !! adv_x = Some a ∧ heap s !! x = Some xs ∧
    Forall (λ i, i < length a) act ∧
    gather a act = Some cur ∧ gather targets act = Some tg ∧
    _compute (self s) (rng s) cur tg (eps_step (self s)) (random_init (self s))
      = (stepped, g) ∧
    length act = length stepped ∧
    gather (scatter act stepped a) act = Some cur' ∧
    gather xs act = Some orig ∧
    noise = projection (zip_with x_sub cur' orig) (eps (self s)) (norm (self s)) ∧
    length orig = length noise ∧
    it_active_in it = act ∧
    it_adv it = scatter act (zip_with x_add orig noise) (scatter act stepped a) ∧
    gather (it_adv it) act = Some batch ∧
    it_preds it = predict batch ∧
    gather tls act = Some tl ∧
    argmax_axis1 (it_preds it) = Some am ∧
    length tl = length am ∧
    it_active_out it = keep act tl am ∧
    heap s' = <[adv_x := it_adv it]> (heap s) ∧
    self s' = self s ∧ rng s' = g ∧
    log s' = log s ++
      [EvCompute cur tg (eps_step (self s)) (random_init (self s));
       EvProjection (zip_with x_sub cur' orig) (eps (self s)) (norm (self s));
       EvPredict batch].
Proof.
  intros Hne H. unfold bim_step in H.
  apply bind_ok in H as (s1 & cur & H1 & H).
  apply getitem_ok in H1 as (-> & a & Ha & Hcur).
  apply bind_ok in H as (s1 & tg & H1 & H). apply or_raise_ok in H1 as [-> Htg].
  apply bind_ok in H as (s1 & c & H1 & H). apply get_self_ok in H1 as [-> ->].
  apply bind_ok in H as (s1 & stepped & H1 & H).
  apply call_compute_ok in H1 as (g & Hg & ->).
  apply bind_ok in H as (s1 & [] & H1 & H).
  apply setitem_ok in H1 as (a0 & Ha0 & Hrange & Hlen1 & ->).
  simpl in Ha0. rewrite Ha in Ha0. injection Ha0 as <-.
  apply bind_ok in H as (s1 & cur' & H1 & H).
  apply getitem_ok in H1 as (-> & a1 & Ha1 & Hcur').
  simpl in Ha1. rewrite lookup_insert_eq in Ha1. injection Ha1 as <-.
  apply bind_ok in H as (s1 & orig & H1 & H).
  apply getitem_ok in H1 as (-> & xs & Hxs & Horig).
  simpl in Hxs. rewrite lookup_insert_ne in Hxs by done.
  apply bind_ok in H as (s1 & diff & H1 & H).
  apply elementwise_ok in H1 as (-> & Hlen2 & ->).
  apply bind_ok in H as (s1 & c & H1 & H). apply get_self_ok in H1 as [-> ->].
  apply bind_ok in H as (s1 & noise & H1 & H).
  apply call_projection_ok in H1 as [-> Hnoise].
  apply bind_ok in H as (s1 & orig' & H1 & H).
  apply getitem_ok in H1 as (-> & xs' & Hxs' & Horig').
  simpl in Hxs'. rewrite lookup_insert_ne in Hxs' by done.
  rewrite Hxs in Hxs'. injection Hxs' as <-.
  rewrite Horig in Horig'. injection Horig' as <-.
  apply bind_ok in H as (s1 & moved & H1 & H).
  apply elementwise_ok in H1 as (-> & Hlen3 & ->).
  apply bind_ok in H as (s1 & [] & H1 & H).
  apply setitem_ok in H1 as (a1 & Ha1 & Hrange2 & Hlen4 & ->).
  simpl in Ha1. rewrite lookup_insert_eq in Ha1. injection Ha1 as <-.
  apply bind_ok in H as (s1 & batch & H1 & H).
  apply getitem_ok in H1 as (-> & a2 & Ha2 & Hbatch).
  simpl in Ha2. rewrite lookup_insert_eq in Ha2. injection Ha2 as <-.
  apply bind_ok in H as (s1 & adv_preds & H1 & H).
  apply call_predict_ok in H1 as [-> ->].
  apply bind_ok in H as (s1 & tl & H1 & H). apply or_raise_ok in H1 as [-> Htl].
  apply bind_ok in H as (s1 & am & H1 & H). apply or_raise_ok in H1 as [-> Ham].
  apply bind_ok in H as (s1 & [] & H1 & H). apply same_length_ok in H1 as [-> Hlen5].
  apply bind_ok in H as (s1 & act' & H1 & H). apply or_raise_ok in H1 as [-> Hact'].
  apply bind_ok in H as (s1 & snapshot & H1 & H).
  apply deref_ok in H1 as [-> Hsnap].
  simpl in Hsnap. rewrite lookup_insert_eq in Hsnap. injection Hsnap as <-.
  apply ret_ok in H as [-> ->]. simpl.
  rewrite gather_where in Hact'
    by first [done | symmetry; eapply gather_length, Htl].
  injection Hact' as <-.
  exists a, xs, cur, tg, stepped, g, cur', orig, noise, batch, tl, am.
  split_and!; try done.
  - by rewrite insert_insert_eq.
  - by rewrite <- !app_assoc.
Qed.

Lemma bim_step_ok x adv_x targets tls act s s' (it : iteration) a xs :
  x ≠ adv_x → heap s !! adv_x = Some a → heap s !! x = Some xs →
  bim_step x adv_x targets tls act s = (s', inr it) →
  step_ok (self s) xs tls a act it ∧
  heap s' = <[adv_x := it_adv it]> (heap s) ∧ self s' = self s ∧
  ∃ evs, log s' = log s ++ evs ∧ count_predict evs = 1 ∧ count_compute evs = 1.
Proof.
  intros Hne Ha Hxs H.
  apply bim_step_inv in H
    as (a0 & xs0 & cur & tg & stepped & g & cur' & orig & noise & batch & tl & am
        & Ha0 & Hxs0 & Hrange & Hcur & Htg & Hg & Hlen1 & Hcur' & Horig & Hnoise
        & Hlen2 & Hin & Hadv & Hbatch & Hpreds & Htl & Ham & Hlen3 & Hout
        & Hheap & Hself & Hrng & Hlog); [|done].
  rewrite Ha in Ha0. injection Ha0 as <-. rewrite Hxs in Hxs0. injection Hxs0 as <-.
  assert (Hlen4 : length act = length (zip_with x_add orig noise)).
  { rewrite length_zip_with, <- Hlen2, Nat.min_id. symmetry.
    eapply gather_length, Horig. }
  split_and!; [|done..|].
  - split; [done| | | |].
    + by rewrite Hadv, !length_scatter.
    + intros i Hi. by rewrite Hadv, !scatter_lookup_notin.
    + intros i Hi. rewrite Hadv.
      destruct (scatter_lookup_in act (zip_with x_add orig noise)
                  (scatter act stepped a) i) as (j & v & Hj & Hv & ->); [done..| |].
      { rewrite length_scatter. rewrite Forall_forall in Hrange. by apply Hrange. }
      apply lookup_zip_with_Some in Hv as (o & n & -> & Ho & Hn).
      exists o, (zip_with x_sub cur' orig), n. split_and!; [|by subst noise; eapply list_elem_of_lookup_2|done].
      by rewrite <- (gather_lookup _ _ _ _ _ Horig Hj).
    + by exists batch, tl, am.
  - eexists. split; [exact Hlog|]. done.
Qed.

Lemma count_predict_app (evs1 evs2 : list event) :
  count_predict (evs1 ++ evs2) = count_predict evs1 + count_predict evs2.
Proof. unfold count_predict. by rewrite List.filter_app, length_app. Qed.

Lemma count_compute_app (evs1 evs2 : list event) :
  count_compute (evs1 ++ evs2) = count_compute evs1 + count_compute evs2.
Proof. unfold count_compute. by rewrite List.filter_app, length_app. Qed.

Lemma final_active_cons act act' (it : iteration) (rest : list iteration) :
  rest ≠ [] → final_active act (it :: rest) = final_active act' rest.
Proof.
  intros Hne. unfold final_active. rewrite last_cons.
  destruct (last rest) eqn:Hl; [done|]. by apply last_None in Hl.
Qed.

(** The loop, run from contents [a] and active indices [act]. *)
Lemma bim_loop_run n x adv_x targets tls act s s' (its : list iteration) a xs :
  x ≠ adv_x → heap s !! adv_x = Some a → heap s !! x = Some xs →
  bim_loop n x adv_x targets tls act s = (s', inr its) →
  ∃ a', run_ok (self s) xs tls a act its a' ∧
    heap s' = <[adv_x := a']> (heap s) ∧ self s' = self s ∧
    length its ≤ n ∧
    (length its < n → its ≠ [] ∧ final_active act its = []) ∧
    ∃ evs, log s' = log s ++ evs ∧
           count_predict evs = length its ∧ count_compute evs = length its.
Proof.
  intros Hne. revert act s a its.
  induction n as [|n IH]; intros act s a its Ha Hxs H; simpl in H.
  - apply ret_ok in H as [-> ->]. exists a. split_and!; try done.
    + constructor.
    + by rewrite insert_id.
    + simpl. lia.
    + exists []. by rewrite app_nil_r.
  - apply bind_ok in H as (s1 & it & Hstep & H).
    destruct (bim_step_ok _ _ _ _ _ _ _ _ _ _ Hne Ha Hxs Hstep)
      as (Hok & Hheap & Hself & evs1 & Hlog1 & Hp1 & Hc1).
    destruct (Nat.eqb_spec (length (it_active_out it)) 0) as [Hz|Hnz].
    + apply ret_ok in H as [-> ->]. apply nil_length_inv in Hz.
      exists (it_adv it). split_and!; try done.
      * apply run_cons; [done|done|constructor].
      * simpl. lia.
      * exists evs1. done.
    + apply bind_ok in H as (s2 & rest & Hloop & H). apply ret_ok in H as [-> ->].
      destruct (IH (it_active_out it) s1 (it_adv it) rest)
        as (a' & Hrun & Hheap' & Hself' & Hlen & Hearly & evs2 & Hlog2 & Hp2 & Hc2);
        [by rewrite Hheap, lookup_insert_eq
        |by rewrite Hheap, lookup_insert_ne|done|].
      exists a'. split_and!.
      * apply run_cons; [done| |by rewrite <- Hself].
        intros Hnil. by rewrite Hnil in Hnz.
      * by rewrite Hheap', Hheap, insert_insert_eq.
      * congruence.
      * simpl. lia.
      * simpl. intros Hlt. destruct Hearly as [Hrest Hfin]; [lia|].
        split; [done|]. by rewrite (final_active_cons _ (it_active_out it)).
      * exists (evs1 ++ evs2). split_and!.
        -- by rewrite Hlog2, Hlog1, app_assoc.
        -- rewrite count_predict_app. simpl. lia.
        -- rewrite count_compute_app. simpl. lia.
Qed.

(** *** [set_params] and the entry of [generate] *)

(** [set_params] stores the overrides and then answers by the checks alone. *)
Lemma set_params_eq kw s :
  set_params kw s =
  (with_self (apply_overrides kw (self s)) s,
   let c := apply_overrides kw (self s) in
   match fgm_validate (norm c) (eps c) with
   | Some err => inl err
   | None =>
       if py_gt (eps_step c) (eps c) then inl ValueError_eps_step
       else if py_le0 (max_iter c) then inl ValueError_max_iter
       else inr true
   end).
Proof.
  unfold set_params, fgm_set_params, bind, get_self, put_self, ret, raise. simpl.
  destruct (fgm_validate _ _); [done|]. simpl.
  destruct (py_gt _ _); [done|]. by destruct (py_le0 _).
Qed.

Lemma set_params_ok kw s s' b :
  set_params kw s = (s', inr b) →
  s' = with_self (apply_overrides kw (self s)) s ∧
  valid_config (apply_overrides kw (self s)).
Proof.
  rewrite set_params_eq. simpl. intros H.
  destruct (fgm_validate _ _) eqn:Hv; [done|].
  destruct (py_gt _ _) eqn:Hs; [done|].
  destruct (py_le0 _) eqn:Hm; [done|].
  injection H as <- _. split; [done|]. split_and!; [done| |].
  - by apply py_gt_false.
  - by apply py_le0_false.
Qed.

Lemma resolve_targets_ok x kw s s' targets :
  resolve_targets x (kw_y kw) s = (s', inr targets) →
  ∃ xs', (labels_supplied kw = false → targeted (self s) = false ∧ heap s !! x = Some xs') ∧
    (∀ xs, heap s !! x = Some xs →
       targets = targets_of kw xs ∧
       s' = mkState X G (heap s) (self s) (rng s) (log s ++ label_events kw xs)).
Proof.
  unfold resolve_targets, targets_of, label_events, labels_supplied.
  destruct s as [h c g l]. simpl.
  destruct (kw_y kw) as [[y|]|].
  - intros H. apply ret_ok in H as [-> ->]. exists [].
    split; [done|]. intros xs _. by rewrite app_nil_r.
  - intros H. apply bind_ok in H as (s1 & c1 & H1 & H).
    apply get_self_ok in H1 as [-> ->]. simpl in H.
    destruct (targeted c) eqn:Ht; [done|].
    apply bind_ok in H as (s1 & xs & H1 & H). apply deref_ok in H1 as [-> Hxs].
    apply bind_ok in H as (s1 & preds & H1 & H).
    apply call_predict_ok in H1 as [-> ->]. apply ret_ok in H as [-> ->].
    exists xs. split; [done|]. simpl in Hxs. intros xs0 Hxs0.
    rewrite Hxs in Hxs0. by injection Hxs0 as <-.
  - intros H. apply bind_ok in H as (s1 & c1 & H1 & H).
    apply get_self_ok in H1 as [-> ->]. simpl in H.
    destruct (targeted c) eqn:Ht; [done|].
    apply bind_ok in H as (s1 & xs & H1 & H). apply deref_ok in H1 as [-> Hxs].
    apply bind_ok in H as (s1 & preds & H1 & H).
    apply call_predict_ok in H1 as [-> ->]. apply ret_ok in H as [-> ->].
    exists xs. split; [done|]. simpl in Hxs. intros xs0 Hxs0.
    rewrite Hxs in Hxs0. by injection Hxs0 as <-.
Qed.

Lemma np_copy_ok x s s' adv_x :
  np_copy X G x s = (s', inr adv_x) →
  ∃ xs, heap s !! x = Some xs ∧ heap s !! adv_x = None ∧ x ≠ adv_x ∧
        s' = with_heap (<[adv_x := xs]> (heap s)) s.
Proof.
  unfold np_copy. intros H.
  apply bind_ok in H as (s1 & xs & H1 & H). apply deref_ok in H1 as [-> Hxs].
  injection H as <- <-.
  assert (Hfresh : heap s !! fresh (dom (heap s)) = None).
  { apply not_elem_of_dom, is_fresh. }
  exists xs. split_and!; try done. intros ->. congruence.
Qed.

(** A call to [generate] that returns: the checks passed, [adv_x] is a new
    array, and the loop was entered on a copy of [x] with every index
    active, after the queries of label resolution. *)
Lemma generate_trace_loop x kw s s' adv_x (its : list iteration) :
  generate_trace x kw s = (s', inr (adv_x, its)) →
  let c := apply_overrides kw (self s) in
  ∃ xs tls z,
    valid_config c ∧ max_iter c = PyInt z ∧ (0 < z)%Z ∧
    (labels_supplied kw = false → targeted c = false) ∧
    heap s !! x = Some xs ∧ heap s !! adv_x = None ∧ x ≠ adv_x ∧
    argmax_axis1 (targets_of kw xs) = Some tls ∧
    bim_loop (Z.to_nat z) x adv_x (targets_of kw xs) tls (seq 0 (length xs))
      (mkState X G (<[adv_x := xs]> (heap s)) c (rng s)
         (log s ++ label_events kw xs)) = (s', inr its).
Proof.
  intros H c. unfold generate_trace in H.
  apply bind_ok in H as (s1 & b & H1 & H). apply set_params_ok in H1 as [-> Hvalid].
  fold c in H, Hvalid. clearbody c.
  apply bind_ok in H as (s1 & adv & H1 & H).
  apply np_copy_ok in H1 as (xs & Hxs & Hnone & Hne & ->). simpl in Hxs, Hnone.
  apply bind_ok in H as (s1 & targets & H1 & H).
  apply resolve_targets_ok in H1 as (xs' & Htgt & H1). simpl in Htgt.
  destruct (H1 xs) as [-> ->]; [by simpl; rewrite lookup_insert_ne|]. simpl in H.
  clear H1.
  apply bind_ok in H as (s1 & tls & H1 & H). apply or_raise_ok in H1 as [-> Htls].
  apply bind_ok in H as (s1 & a & H1 & H). apply deref_ok in H1 as [-> Ha].
  simpl in Ha. rewrite lookup_insert_eq in Ha. injection Ha as <-.
  apply bind_ok in H as (s1 & c1 & H1 & H). apply get_self_ok in H1 as [-> ->].
  simpl in H.
  apply bind_ok in H as (s1 & n & H1 & H).
  pose proof Hvalid as (Hv1 & Hv2 & Hv3).
  destruct (max_iter c) as [z|q] eqn:Hmi; simpl in H1; [|done].
  apply ret_ok in H1 as [-> ->]. simpl in Hv3.
  apply bind_ok in H as (s1 & its' & H1 & H). apply ret_ok in H as [-> [= -> ->]].
  exists xs, tls, z. split_and!; try done.
  intros Hl. by apply Htgt.
Qed.

(** What the loop of such a call guarantees. *)
Lemma generate_trace_inv x kw s s' adv_x (its : list iteration) :
  generate_trace x kw s = (s', inr (adv_x, its)) →
  let c := apply_overrides kw (self s) in
  ∃ xs tls z out evs,
    valid_config c ∧ max_iter c = PyInt z ∧ (0 < z)%Z ∧
    (labels_supplied kw = false → targeted c = false) ∧
    heap s !! x = Some xs ∧ heap s !! adv_x = None ∧ x ≠ adv_x ∧
    argmax_axis1 (targets_of kw xs) = Some tls ∧
    run_ok c xs tls xs (seq 0 (length xs)) its out ∧
    heap s' = <[adv_x := out]> (heap s) ∧ self s' = c ∧
    length its ≤ Z.to_nat z ∧
    (length its < Z.to_nat z → final_active (seq 0 (length xs)) its = []) ∧
    its ≠ [] ∧
    log s' = log s ++ label_events kw xs ++ evs ∧
    count_predict evs = length its ∧ count_compute evs = length its.
Proof.
  intros H c. apply generate_trace_loop in H. fold c in H. clearbody c.
  destruct H as (xs & tls & z & Hvalid & Hmi & Hz & Htgt & Hxs & Hnone & Hne
                 & Htls & H1).
  eapply bim_loop_run in H1
    as (out & Hrun & Hheap & Hself & Hlen & Hearly & evs & Hlog & Hp & Hc);
    [|done|by simpl; apply lookup_insert_eq|by simpl; rewrite lookup_insert_ne].
  simpl in Hrun, Hheap, Hself, Hlog.
  exists xs, tls, z, out, evs. split_and!; try done.
  - by rewrite Hheap, insert_insert_eq.
  - intros Hlt. by apply Hearly.
  - intros ->. simpl in Hearly. destruct Hearly as [? _]; [lia|done].
  - by rewrite Hlog, app_assoc.
Qed.

(** *** What a run of the loop guarantees *)

Lemma step_ok_sublist c xs tls a act (it : iteration) :
  step_ok c xs tls a act it → it_active_out it `sublist_of` act.
Proof.
  intros [_ _ _ _ (batch & tl & am & _ & _ & _ & _ & _ & ->)]. apply keep_sublist.
Qed.

Lemma active_before_cons act (it0 : iteration) rest k :
  active_before act (it0 :: rest) (S k) = active_before (it_active_out it0) rest k.
Proof. by destruct k. Qed.

(** Iteration [k] of a run: where it starts, what it guarantees, and the run
    that follows it. *)
Lemma run_ok_lookup c xs tls a act (its : list iteration) a' k it :
  run_ok c xs tls a act its a' → its !! k = Some it →
  active_before act its k `sublist_of` act ∧
  (∃ ak, step_ok c xs tls ak (active_before act its k) it) ∧
  (it_active_out it = [] → length its = S k) ∧
  run_ok c xs tls (it_adv it) (it_active_out it) (drop (S k) its) a'.
Proof.
  intros Hrun. revert k.
  induction Hrun as [a act|a act it0 rest a' Hstep Hbreak Hrun IH]; intros k Hk; [done|].
  destruct k as [|k]; simpl in Hk.
  - injection Hk as ->. simpl. split_and!; [done|by exists a| |done].
    intros Hnil. by rewrite (Hbreak Hnil).
  - destruct (IH k Hk) as (Hsub & Hk_step & Hk_break & Hk_run).
    rewrite active_before_cons. split_and!; [|done| |done].
    + etrans; [exact Hsub|]. by eapply step_ok_sublist.
    + intros Hnil. simpl. by rewrite (Hk_break Hnil).
Qed.

(** Rows outside the active indices are not written by the run. *)
Lemma run_ok_frozen c xs tls a act (its : list iteration) a' i :
  run_ok c xs tls a act its a' → i ∉ act →
  a' !! i = a !! i ∧ ∀ it, it ∈ its → it_adv it !! i = a !! i.
Proof.
  intros Hrun. induction Hrun as [a act|a act it0 rest a' Hstep Hbreak Hrun IH];
    intros Hi.
  - split; [done|]. intros it Hit. by apply elem_of_nil in Hit.
  - assert (Hi' : i ∉ it_active_out it0).
    { intros Hin. apply Hi. eapply elem_of_sublist; [exact Hin|].
      by eapply step_ok_sublist. }
    destruct (IH Hi') as [Hfin Hall].
    assert (H0 : it_adv it0 !! i = a !! i) by by apply (so_frame _ _ _ _ _ _ _ _ _ _ Hstep).
    split; [congruence|].
    intros it Hit. apply elem_of_cons in Hit as [->|Hit]; [done|].
    rewrite Hall by done. done.
Qed.

Lemma run_ok_length c xs tls a act (its : list iteration) a' :
  run_ok c xs tls a act its a' →
  length a' = length a ∧ ∀ it, it ∈ its → length (it_adv it) = length a.
Proof.
  intros Hrun. induction Hrun as [a act|a act it0 rest a' Hstep Hbreak Hrun IH].
  - split; [done|]. intros it Hit. by apply elem_of_nil in Hit.
  - destruct IH as [Hfin Hall].
    pose proof (so_length _ _ _ _ _ _ _ _ _ _ Hstep) as H0.
    split; [congruence|].
    intros it Hit. apply elem_of_cons in Hit as [->|Hit]; [done|].
    rewrite Hall by done. done.
Qed.

(** The run ends with the contents its last iteration left. *)
Lemma run_ok_last c xs tls a act (its : list iteration) a' it :
  run_ok c xs tls a act its a' → last its = Some it → a' = it_adv it.
Proof.
  intros Hrun. induction Hrun as [a act|a act it0 rest a' Hstep Hbreak Hrun IH];
    intros Hlast; [done|].
  rewrite last_cons in Hlast. destruct (last rest) as [it1|] eqn:Hl.
  - injection Hlast as ->. by apply IH.
  - injection Hlast as ->. apply last_None in Hl. subst rest. by inversion Hrun.
Qed.

(** The active indices never hold an index twice. *)
Lemma run_ok_NoDup c xs tls a act (its : list iteration) a' k it :
  run_ok c xs tls a act its a' → NoDup act → its !! k = Some it →
  NoDup (it_active_in it).
Proof.
  intros Hrun Hnd Hk.
  destruct (run_ok_lookup _ _ _ _ _ _ _ _ _ Hrun Hk) as (Hsub & [ak Hstep] & _ & _).
  rewrite (so_active_in _ _ _ _ _ _ _ _ _ _ Hstep). by eapply sublist_NoDup.
Qed.

Lemma step_ok_anchored c xs tls a act (it : iteration) :
  step_ok c xs tls a act it →
  anchored c xs a ∨ (∀ i, i < length xs → i ∈ act) →
  anchored c xs (it_adv it).
Proof.
  intros Hstep Hpre i xi oi Hxi Hoi.
  destruct (decide (i ∈ act)) as [Hin|Hnin].
  - destruct (so_moved _ _ _ _ _ _ _ _ _ _ Hstep i Hin) as (xi' & d & n & Hxi' & Hn & Hv).
    exists d, n. split; [done|]. congruence.
  - destruct Hpre as [Hanch|Hall].
    + apply (Hanch i xi oi Hxi).
      by rewrite <- (so_frame _ _ _ _ _ _ _ _ _ _ Hstep i Hnin).
    + destruct Hnin. apply Hall. eapply lookup_lt_Some, Hxi.
Qed.

Lemma run_ok_anchored c xs tls a act (its : list iteration) a' :
  run_ok c xs tls a act its a' → anchored c xs a → anchored c xs a'.
Proof.
  intros Hrun. induction Hrun as [a act|a act it0 rest a' Hstep Hbreak Hrun IH];
    [done|].
  intros Hanch. apply IH. eapply step_ok_anchored; [exact Hstep|by left].
Qed.

(** A run that starts with every index active and makes at least one
    iteration leaves every row anchored to its original. *)
Lemma run_ok_anchored_all c xs tls a (its : list iteration) a' :
  run_ok c xs tls a (seq 0 (length xs)) its a' → its ≠ [] → anchored c xs a'.
Proof.
  intros Hrun Hne. inversion Hrun as [|a0 act0 it0 rest a0' Hstep Hbreak Hrest]; subst; [done|].
  eapply run_ok_anchored; [exact Hrest|].
  eapply step_ok_anchored; [exact Hstep|]. right.
  intros i Hi. apply elem_of_seq. lia.
Qed.

(** ** The active index set *)

(** Line 107 as it is written, for targeted and untargeted runs alike.  In
    every iteration of every call to [generate] that returns, a sample index
    that was active when the iteration started is still active after it
    exactly when the fixed target label of the sample differs from the
    arg-max of the classifier's prediction on the sample's current perturbed
    input, and it is removed exactly when the two are equal. *)
Theorem active_index_kept_iff_label_differs x kw s s' adv_x
    (its : list iteration) xs tls k it j i :
  generate_trace x kw s = (s', inr (adv_x, its)) →
  heap s !! x = Some xs →
  argmax_axis1 (targets_of kw xs) = Some tls →
  its !! k = Some it →
  it_active_in it !! j = Some i →
  ∃ batch t row p,
    gather (it_adv it) (it_active_in it) = Some batch ∧
    it_preds it = predict batch ∧
    tls !! i = Some t ∧ it_preds it !! j = Some row ∧ argmax row = Some p ∧
    (i ∈ it_active_out it ↔ t ≠ p) ∧
    (i ∉ it_active_out it ↔ t = p).
Proof.
  intros Hgen Hxs Htls Hk Hj.
  apply generate_trace_inv in Hgen
    as (xs0 & tls0 & z & out & evs & _ & _ & _ & _ & Hxs0 & _ & _ & Htls0 & Hrun & _).
  rewrite Hxs in Hxs0. injection Hxs0 as <-.
  rewrite Htls in Htls0. injection Htls0 as <-.
  pose proof (run_ok_NoDup _ _ _ _ _ _ _ _ _ Hrun (NoDup_seq 0 _) Hk) as Hnd.
  destruct (run_ok_lookup _ _ _ _ _ _ _ _ _ Hrun Hk) as (_ & [ak Hstep] & _ & _).
  destruct Hstep as [Hin _ _ _ (batch & tl & am & Hbatch & Hpreds & Htl & Ham & Hlen & Hout)].
  rewrite <- Hin in Hbatch, Htl, Hout.
  assert (Hjlt : j < length (it_active_in it)) by (eapply lookup_lt_Some, Hj).
  destruct (lookup_lt_is_Some_2 tl j) as [t Ht].
  { by rewrite (gather_length _ _ _ Htl). }
  destruct (lookup_lt_is_Some_2 am j) as [p Hp].
  { by rewrite <- Hlen, (gather_length _ _ _ Htl). }
  apply mapM_Some in Ham.
  destruct (Forall2_lookup_r _ _ _ _ _ Ham Hp) as (row & Hrow & Harg).
  assert (Hkeep : i ∈ it_active_out it ↔ t ≠ p).
  { rewrite Hout. by apply (keep_elem_of _ _ _ j). }
  exists batch, t, row, p. split_and!; try done.
  - by rewrite <- (gather_lookup _ _ _ _ _ Htl Hj).
  - rewrite Hkeep. split.
    + intros Hn. destruct (decide (t = p)) as [|Hne]; [done|by destruct Hn].
    + intros -> Hn. by apply Hn.
Qed.

(** C4.  In every call to [generate] that returns, every iteration starts
    from the active indices the previous one left (the first from all the
    indices of the batch) and leaves a sublist of them, so indices are only
    removed and the size of the active set never grows; the loop makes at
    most [max_iter] iterations, an iteration that leaves no active index is
    the last one, and the loop stops before [max_iter] iterations only then. *)
Theorem active_set_only_shrinks x kw s s' adv_x (its : list iteration) xs :
  generate_trace x kw s = (s', inr (adv_x, its)) →
  heap s !! x = Some xs →
  (∀ k it, its !! k = Some it →
     it_active_in it = active_before (seq 0 (length xs)) its k ∧
     it_active_out it `sublist_of` it_active_in it ∧
     (∀ i, i ∈ it_active_out it → i ∈ it_active_in it) ∧
     length (it_active_out it) ≤ length (it_active_in it) ∧
     (it_active_out it = [] → length its = S k)) ∧
  ∃ z, max_iter (self s') = PyInt z ∧ length its ≤ Z.to_nat z ∧
       (length its < Z.to_nat z → final_active (seq 0 (length xs)) its = []).
Proof.
  intros Hgen Hxs.
  apply generate_trace_inv in Hgen
    as (xs0 & tls & z & out & evs & _ & Hmax & _ & _ & Hxs0 & _ & _ & _ & Hrun
        & _ & Hself & Hlen & Hearly & _).
  rewrite Hxs in Hxs0. injection Hxs0 as <-. split.
  - intros k it Hk.
    destruct (run_ok_lookup _ _ _ _ _ _ _ _ _ Hrun Hk) as (_ & [ak Hstep] & Hbreak & _).
    pose proof (step_ok_sublist _ _ _ _ _ _ Hstep) as Hsub.
    rewrite (so_active_in _ _ _ _ _ _ _ _ _ _ Hstep). split_and!; try done.
    + intros i Hi. by eapply elem_of_sublist.
    + by apply sublist_length.
  - exists z. rewrite Hself. done.
Qed.

(** ** The perturbation budget *)

Section Budget.

(** The ball of a given radius and norm order. *)
Variable in_ball : Q → norm_t → X → Prop.

(** Every row of the result is the original row plus a row that the
    projection returned for the configured radius and norm. *)
Lemma every_row_within_budget x kw s s' adv_x (its : list iteration)
    xs out i xi oi :
  projects_into_ball in_ball (self s') →
  generate_trace x kw s = (s', inr (adv_x, its)) →
  heap s !! x = Some xs → heap s' !! adv_x = Some out →
  xs !! i = Some xi → out !! i = Some oi →
  ∃ n, in_ball (eps (self s')) (norm (self s')) n ∧ oi = x_add xi n.
Proof.
  intros Hball Hgen Hxs Hout Hxi Hoi.
  apply generate_trace_inv in Hgen
    as (xs0 & tls & z & out0 & evs & _ & _ & _ & _ & Hxs0 & _ & _ & _ & Hrun
        & Hheap & Hself & _ & _ & Hne & _).
  rewrite Hxs in Hxs0. injection Hxs0 as <-.
  rewrite Hheap, lookup_insert_eq in Hout. injection Hout as <-.
  destruct (run_ok_anchored_all _ _ _ _ _ _ Hrun Hne i xi oi Hxi Hoi)
    as (d & n & Hn & ->).
  exists n. split; [|done]. rewrite <- Hself in Hn.
  specialize (Hball d). rewrite Forall_forall in Hball. by apply Hball.
Qed.

(** C2, as the code has it.  When [generate] returns, every sample index
    that is not in the active set then has a returned row that is the
    original row plus a noise row inside the ball of the configured radius
    and norm, provided the projection keeps its contract: every iteration
    re-derives the active rows as original plus projected noise.  The
    returned row minus the original row is inside the ball whenever that
    subtraction gives the noise back, as it does in exact arithmetic.  With
    binary64 rounding it need not, see
    [perturbation_exceeds_budget_counterexample]. *)
Theorem perturbation_within_budget x kw s s' adv_x (its : list iteration)
    xs out i xi oi :
  projects_into_ball in_ball (self s') →
  generate_trace x kw s = (s', inr (adv_x, its)) →
  heap s !! x = Some xs → heap s' !! adv_x = Some out →
  i ∉ final_active (seq 0 (length xs)) its →
  xs !! i = Some xi → out !! i = Some oi →
  ∃ n, in_ball (eps (self s')) (norm (self s')) n ∧ oi = x_add xi n ∧
       (x_sub (x_add xi n) xi = n →
        in_ball (eps (self s')) (norm (self s')) (x_sub oi xi)).
Proof.
  intros Hball Hgen Hxs Hout _ Hxi Hoi.
  destruct (every_row_within_budget _ _ _ _ _ _ _ _ _ _ _ Hball Hgen Hxs Hout
              Hxi Hoi) as (n & Hn & ->).
  exists n. split_and!; [done..|]. by intros ->.
Qed.

End Budget.

(** ** Rows that left the active set *)

(** C9.  In a call to [generate] that returns, [adv_x] keeps the length of
    the input in every iteration, so row [i] always belongs to input sample
    [i]; a row whose index is not active after iteration [k] has, in every
    later iteration and in the returned batch, the value it had after
    iteration [k]; and the returned batch is what the last iteration left,
    which gives the rows still active their last-updated value. *)
Theorem inactive_rows_frozen x kw s s' adv_x (its : list iteration) xs out :
  generate_trace x kw s = (s', inr (adv_x, its)) →
  heap s !! x = Some xs → heap s' !! adv_x = Some out →
  length out = length xs ∧
  (∀ k it, its !! k = Some it →
     length (it_adv it) = length xs ∧
     ∀ i, i ∉ it_active_out it →
       out !! i = it_adv it !! i ∧
       ∀ k' it', k ≤ k' → its !! k' = Some it' → it_adv it' !! i = it_adv it !! i) ∧
  (∀ it, last its = Some it → out = it_adv it).
Proof.
  intros Hgen Hxs Hout.
  apply generate_trace_inv in Hgen
    as (xs0 & tls & z & out0 & evs & _ & _ & _ & _ & Hxs0 & _ & _ & _ & Hrun
        & Hheap & _).
  rewrite Hxs in Hxs0. injection Hxs0 as <-.
  rewrite Hheap, lookup_insert_eq in Hout. injection Hout as <-.
  destruct (run_ok_length _ _ _ _ _ _ _ Hrun) as [Hlen Hlens].
  split_and!; [done| |].
  - intros k it Hk. split.
    { apply Hlens. eapply list_elem_of_lookup_2, Hk. }
    intros i Hi.
    destruct (run_ok_lookup _ _ _ _ _ _ _ _ _ Hrun Hk) as (_ & _ & _ & Hrest).
    destruct (run_ok_frozen _ _ _ _ _ _ _ i Hrest Hi) as [Hfin Hlater].
    split; [done|]. intros k' it' Hle Hk'.
    destruct (decide (k' = k)) as [->|Hneq]; [congruence|].
    apply Hlater. apply list_elem_of_lookup. exists (k' - S k).
    rewrite lookup_drop. rewrite <- Hk'. f_equal. lia.
  - intros it Hlast. by eapply run_ok_last.
Qed.

(** ** Validation of the configuration *)

(** A bad configuration stops [generate] in [set_params], before anything
    else is done: only the attributes of [self] have changed. *)
Lemma generate_set_params_error x kw s e :
  (set_params kw s).2 = inl e →
  generate x kw s = (with_self (apply_overrides kw (self s)) s, inl e).
Proof.
  intros H. unfold generate, generate_trace, bind.
  destruct (set_params kw s) as [s1 r] eqn:Hset. simpl in H. subst r.
  rewrite set_params_eq in Hset. by injection Hset as <- _.
Qed.

(** C5.  For arguments that the base class accepts, the constructor raises
    the step-size error exactly when [eps_step > eps], so that
    [eps_step = eps] is accepted; the same holds for [set_params] on the
    attributes that the overrides of [generate] leave; and [generate]
    called with such a bad pair raises that error to its caller with the
    store, the generator and the log of collaborator calls untouched. *)
Theorem step_size_rejected_iff_exceeds_budget
    nrm e e_step m_iter tgt rinit kw s x :
  fgm_validate nrm e = None →
  fgm_validate (norm (apply_overrides kw (self s)))
               (eps (apply_overrides kw (self s))) = None →
  let c := apply_overrides kw (self s) in
  (__init__ nrm e e_step m_iter tgt rinit = inl ValueError_eps_step
     ↔ (e < e_step)%Q) ∧
  ((set_params kw s).2 = inl ValueError_eps_step ↔ (eps c < eps_step c)%Q) ∧
  ((eps c < eps_step c)%Q →
     ∃ s', generate x kw s = (s', inl ValueError_eps_step) ∧
           heap s' = heap s ∧ rng s' = rng s ∧ log s' = log s).
Proof.
  intros Hv Hv' c. fold c in Hv'.
  pose proof (set_params_eq kw s) as Hsp. fold c in Hsp.
  pose proof (generate_set_params_error x kw s) as Hgen. fold c in Hgen.
  clearbody c.
  assert (Hset : (set_params kw s).2 = inl ValueError_eps_step
                 ↔ (eps c < eps_step c)%Q).
  { rewrite Hsp. simpl. rewrite Hv', <- py_gt_true.
    destruct (py_gt _ _); [done|].
    split; [|done]. by destruct (py_le0 _). }
  split_and!; [|done|].
  - unfold __init__. rewrite Hv, <- py_gt_true.
    destruct (py_gt _ _); [done|]. split; [|done]. by destruct (py_le0 _).
  - intros Hbad. apply Hset in Hbad.
    exists (with_self c s). split; [|done]. by apply Hgen.
Qed.

(** Truncation of a fraction strictly between 0 and 1. *)
Lemma py_int_fraction (q : Q) : (0 < q)%Q → (q < 1)%Q → py_int (PyFloat q) = 0%Z.
Proof.
  destruct q as [n d]. unfold Qlt. simpl. intros H0 H1.
  apply Z.quot_small. lia.
Qed.


(** C10, as the code has it.  For arguments that pass the other checks, a
    fractional [max_iter] strictly between 0 and 1 is accepted by the
    constructor and stored as 0; a later call to [generate] that does not
    override [max_iter] then raises an invalid-configuration error from
    [set_params] and does nothing else: the store, the generator and the
    log are unchanged.  Without any override the error is the [max_iter]
    error. *)
Theorem fractional_max_iter_blocks_generate nrm e e_step q tgt rinit :
  fgm_validate nrm e = None → (e_step <= e)%Q → (0 < q)%Q → (q < 1)%Q →
  ∃ c, __init__ nrm e e_step (PyFloat q) tgt rinit = inr c ∧
    max_iter c = PyInt 0 ∧
    ∀ s x kw, self s = c → kw_max_iter kw = None →
      ∃ s' err, generate x kw s = (s', inl err) ∧ invalid_configuration err ∧
        heap s' = heap s ∧ rng s' = rng s ∧ log s' = log s ∧
        (kw_norm kw = None → kw_eps kw = None → kw_eps_step kw = None →
         err = ValueError_max_iter).
Proof.
  intros Hv Hstep H0 H1. apply py_gt_false in Hstep.
  exists (mkBIM nrm e tgt rinit e_step (PyInt 0)). split_and!; [|done|].
  - unfold __init__. rewrite Hv, Hstep.
    replace (py_le0 (PyFloat q)) with false
      by (symmetry; by apply py_le0_false).
    by rewrite py_int_fraction.
  - intros s x kw Hself Hkw.
    pose proof (set_params_eq kw s) as Hsp.
    pose proof (generate_set_params_error x kw s) as Hgen.
    assert (Hmax : max_iter (apply_overrides kw (self s)) = PyInt 0).
    { simpl. by rewrite Hkw, Hself. }
    assert (Hnone : kw_norm kw = None → kw_eps kw = None → kw_eps_step kw = None →
              fgm_validate (norm (apply_overrides kw (self s)))
                           (eps (apply_overrides kw (self s))) = None ∧
              py_gt (eps_step (apply_overrides kw (self s)))
                    (eps (apply_overrides kw (self s))) = false).
    { intros E1 E2 E3. simpl. by rewrite E1, E2, E3, Hself. }
    set (c := apply_overrides kw (self s)) in *. clearbody c.
    rewrite Hsp in Hgen. simpl in Hgen.
    destruct (fgm_validate (norm c) (eps c)) as [err|] eqn:Hv'.
    + exists (with_self c s), err. split_and!; try done.
      * by apply Hgen.
      * by eapply fgm_validate_invalid.
      * intros E1 E2 E3. by destruct (Hnone E1 E2 E3).
    + destruct (py_gt (eps_step c) (eps c)) eqn:Hgt.
      * exists (with_self c s), ValueError_eps_step. split_and!; try done.
        -- by apply Hgen.
        -- unfold invalid_configuration. auto.
        -- intros E1 E2 E3. by destruct (Hnone E1 E2 E3).
      * rewrite Hmax in Hgen. simpl in Hgen.
        exists (with_self c s), ValueError_max_iter. split_and!; try done.
        -- by apply Hgen.
        -- unfold invalid_configuration. auto.
Qed.

(** ** The caller's arrays *)

Lemma bind_inv {A B : Type} (m : M A) (k : A → M B) s s' (r : error + B) :
  bind X G m k s = (s', r) →
  (∃ e, m s = (s', inl e) ∧ r = inl e) ∨
  (∃ s1 v, m s = (s1, inr v) ∧ k v s1 = (s', r)).
Proof.
  unfold bind. destruct (m s) as [s1 [e|v]]; intros H.
  - left. exists e. by injection H as -> <-.
  - right. by exists s1, v.
Qed.

Lemma keeps_bind {A B : Type} l (m : M A) (k : A → M B) :
  keeps l m → (∀ v, keeps l (k v)) → keeps l (bind X G m k).
Proof.
  intros Hm Hk s s' r H. apply bind_inv in H as [(e & H & _)|(s1 & v & H1 & H2)].
  - by eapply Hm.
  - rewrite (Hk v _ _ _ H2). by eapply Hm.
Qed.

Lemma keeps_pure {A : Type} l (m : M A) :
  (∀ s, (m s).1 = s) → keeps l m.
Proof.
  intros Hm s s' r H. specialize (Hm s). rewrite H in Hm. simpl in Hm. by subst s'.
Qed.

Lemma keeps_ret {A : Type} l (v : A) : keeps l (ret X G v).
Proof. by apply keeps_pure. Qed.

Lemma keeps_raise {A : Type} l e : keeps l (raise X G (A:=A) e).
Proof. by apply keeps_pure. Qed.

Lemma keeps_get_self l : keeps l (get_self X G).
Proof. by apply keeps_pure. Qed.

Lemma keeps_or_raise {A : Type} l e (o : option A) : keeps l (or_raise X G e o).
Proof. apply keeps_pure. by destruct o. Qed.

Lemma keeps_same_length {A B : Type} l (u : list A) (v : list B) :
  keeps l (same_length X G u v).
Proof. apply keeps_pure. intros s. unfold same_length. by destruct (Nat.eqb _ _). Qed.

Lemma keeps_deref l x : keeps l (deref X G x).
Proof. apply keeps_pure. intros s. unfold deref. by destruct (heap s !! x). Qed.

Lemma keeps_getitem l x idx : keeps l (getitem X G x idx).
Proof.
  apply keeps_bind; [apply keeps_deref|]. intros v. apply keeps_or_raise.
Qed.

Lemma keeps_elementwise l op (u v : list X) : keeps l (elementwise X G op u v).
Proof.
  apply keeps_bind; [apply keeps_same_length|]. intros _. apply keeps_ret.
Qed.

Lemma keeps_call_predict l batch : keeps l (call_predict X G predict batch).
Proof. intros s s' r. unfold call_predict. by intros [= <- _]. Qed.

Lemma keeps_call_projection l d r o :
  keeps l (call_projection X G projection d r o).
Proof. intros s s' r'. unfold call_projection. by intros [= <- _]. Qed.

Lemma keeps_call_compute l batch labels step rinit :
  keeps l (call_compute X G _compute batch labels step rinit).
Proof.
  intros s s' r. unfold call_compute.
  destruct (_compute _ _ _ _ _ _). by intros [= <- _].
Qed.

(** An assignment to [adv_x] leaves every other array alone. *)
Lemma keeps_setitem l adv_x idx vals :
  l ≠ adv_x → keeps l (setitem X G adv_x idx vals).
Proof.
  intros Hne. apply keeps_bind; [apply keeps_deref|]. intros a.
  destruct (forallb _ idx); [|apply keeps_raise].
  apply keeps_bind; [apply keeps_same_length|]. intros _ s s' r [= <- _].
  simpl. by rewrite lookup_insert_ne.
Qed.

Lemma keeps_bim_step l x adv_x targets tls act :
  l ≠ adv_x → keeps l (bim_step x adv_x targets tls act).
Proof.
  intros Hne. unfold bim_step.
  repeat first
    [ apply keeps_ret | apply keeps_getitem | apply keeps_or_raise
    | apply keeps_get_self | apply keeps_call_compute | apply keeps_call_predict
    | apply keeps_call_projection | apply keeps_elementwise
    | apply keeps_same_length | apply keeps_deref
    | by apply keeps_setitem
    | apply keeps_bind; [|intros ?] ].
Qed.

Lemma keeps_bim_loop n l x adv_x targets tls act :
  l ≠ adv_x → keeps l (bim_loop n x adv_x targets tls act).
Proof.
  intros Hne. revert act. induction n as [|n IH]; intros act; simpl.
  - apply keeps_ret.
  - apply keeps_bind; [by apply keeps_bim_step|]. intros it.
    destruct (Nat.eqb _ _); [apply keeps_ret|].
    apply keeps_bind; [apply IH|]. intros rest. apply keeps_ret.
Qed.

Lemma keeps_resolve_targets l x y : keeps l (resolve_targets x y).
Proof.
  unfold resolve_targets. destruct y as [[y|]|]; [apply keeps_ret|..];
    (apply keeps_bind; [apply keeps_get_self|]; intros c;
     destruct (targeted c); [apply keeps_raise|];
     apply keeps_bind; [apply keeps_deref|]; intros xs;
     apply keeps_bind; [apply keeps_call_predict|]; intros preds;
     apply keeps_ret).
Qed.

Lemma keeps_set_params l kw : keeps l (set_params kw).
Proof. intros s s' r. rewrite set_params_eq. by intros [= <- _]. Qed.

(** Whatever the outcome of [generate], every array of the store it was
    called in is unchanged; the array it returns is a new one. *)
Lemma generate_trace_frame x kw s s' r :
  generate_trace x kw s = (s', r) →
  (∀ l, is_Some (heap s !! l) → heap s' !! l = heap s !! l) ∧
  (∀ adv_x its, r = inr (adv_x, its) →
     heap s !! adv_x = None ∧ adv_x ≠ x ∧
     is_Some (heap s !! x) ∧ is_Some (heap s' !! adv_x)).
Proof.
  intros H. split.
  - intros l Hl. unfold generate_trace in H.
    apply bind_inv in H as [(e & H & _)|(s1 & b & H1 & H)].
    { by eapply keeps_set_params. }
    rewrite <- (keeps_set_params l kw _ _ _ H1). rewrite <- (keeps_set_params l kw _ _ _ H1) in Hl.
    clear H1.
    apply bind_inv in H as [(e & H & _)|(s2 & adv & H1 & H)].
    { unfold np_copy in H. apply bind_inv in H as [(e' & H & _)|(s2 & a & H1 & H)].
      - by eapply keeps_deref.
      - done. }
    apply np_copy_ok in H1 as (xs & Hxs & Hnone & Hne & ->).
    assert (Hl' : l ≠ adv).
    { intros ->. rewrite Hnone in Hl. by destruct Hl. }
    assert (Hk : keeps l
      (bind X G (resolve_targets x (kw_y kw)) (λ targets,
       bind X G (or_raise X G ValueError_argmax (argmax_axis1 targets)) (λ target_labels,
       bind X G (deref X G adv) (λ adv0,
       bind X G (get_self X G) (λ c,
       bind X G (py_range X G (max_iter c)) (λ n,
       bind X G (bim_loop n x adv targets target_labels (seq 0 (length adv0)))
         (λ its, ret X G (adv, its))))))))).
    { apply keeps_bind; [apply keeps_resolve_targets|]. intros targets.
      apply keeps_bind; [apply keeps_or_raise|]. intros target_labels.
      apply keeps_bind; [apply keeps_deref|]. intros adv0.
      apply keeps_bind; [apply keeps_get_self|]. intros c.
      apply keeps_bind.
      { apply keeps_pure. intros s0. by destruct (max_iter c). }
      intros n. apply keeps_bind; [by apply keeps_bim_loop|]. intros its.
      apply keeps_ret. }
    rewrite (Hk _ _ _ H). simpl. by rewrite lookup_insert_ne.
  - intros adv_x its ->. pose proof H as H'.
    apply generate_trace_inv in H
      as (xs & tls & z & out & evs & _ & _ & _ & _ & Hxs & Hnone & Hne & _ & _
          & Hheap & _).
    split_and!; [done|done|by exists xs|].
    rewrite Hheap, lookup_insert_eq. by eexists.
Qed.

(** C8.  Whatever the outcome of a call to [generate], every array that
    existed when it was called, the caller's [x] among them, holds the same
    rows afterwards; and when the call returns, the returned batch is an
    array that did not exist before the call, so it is not [x] and shares
    nothing with it: [generate] copied [x] and wrote to the copy only. *)
Theorem input_never_mutated_or_aliased x kw s s' r :
  generate x kw s = (s', r) →
  (∀ l, is_Some (heap s !! l) → heap s' !! l = heap s !! l) ∧
  (∀ adv_x, r = inr adv_x →
     heap s !! adv_x = None ∧ adv_x ≠ x ∧
     heap s' !! x = heap s !! x ∧ is_Some (heap s !! x) ∧
     is_Some (heap s' !! adv_x)).
Proof.
  unfold generate. intros H.
  apply bind_inv in H as [(e & H & ->)|(s1 & [adv its] & H1 & H)].
  - apply generate_trace_frame in H as [Hframe _]. split; [done|]. by intros.
  - apply generate_trace_frame in H1 as [Hframe Hnew].
    injection H as <- <-. simpl.
    split; [done|]. intros adv_x [= <-].
    destruct (Hnew adv its eq_refl) as (Hnone & Hne & Hx & Hadv).
    split_and!; try done. by apply Hframe.
Qed.

(** ** Label resolution *)

Lemma bim_loop_labels n x adv_x targets tls act s s' (its : list iteration) :
  x ≠ adv_x →
  bim_loop n x adv_x targets tls act s = (s', inr its) →
  ∃ evs, log s' = log s ++ evs ∧ Forall (labels_from targets) evs.
Proof.
  intros Hne. revert act s its.
  induction n as [|n IH]; intros act s its H; simpl in H.
  - apply ret_ok in H as [-> ->]. exists []. by rewrite app_nil_r.
  - apply bind_ok in H as (s1 & it & Hstep & H).
    apply bim_step_inv in Hstep
      as (a0 & xs0 & cur & tg & stepped & g & cur' & orig & noise & batch & tl & am
          & _ & _ & _ & _ & Htg & _ & _ & _ & _ & _ & _ & _ & _ & _ & _ & _ & _ & _
          & _ & _ & _ & _ & Hlog); [|done].
    assert (Hev : Forall (labels_from targets)
              [EvCompute cur tg (eps_step (self s)) (random_init (self s));
               EvProjection (zip_with x_sub cur' orig) (eps (self s)) (norm (self s));
               EvPredict batch]).
    { repeat constructor. by exists act. }
    destruct (Nat.eqb _ 0).
    + apply ret_ok in H as [-> ->]. eexists. split; [exact Hlog|done].
    + apply bind_ok in H as (s2 & rest & Hloop & H). apply ret_ok in H as [-> ->].
      destruct (IH _ _ _ Hloop) as (evs & Hlog' & Hall).
      eexists. split.
      * rewrite Hlog', Hlog, <- app_assoc. reflexivity.
      * by apply Forall_app.
Qed.

(** A targeted attack without labels stops [generate] after the copy of [x]
    and before any call to the collaborators. *)
Lemma generate_targets_required x kw s xs :
  heap s !! x = Some xs →
  valid_config (apply_overrides kw (self s)) →
  labels_supplied kw = false →
  targeted (apply_overrides kw (self s)) = true →
  ∃ s', generate x kw s = (s', inl ValueError_targets) ∧
        log s' = log s ∧ rng s' = rng s.
Proof.
  intros Hxs (Hv1 & Hv2 & Hv3) Hlab Htgt.
  apply py_gt_false in Hv2. apply py_le0_false in Hv3.
  pose proof (set_params_eq kw s) as Hsp.
  set (c := apply_overrides kw (self s)) in *. clearbody c.
  simpl in Hsp. rewrite Hv1, Hv2, Hv3 in Hsp.
  unfold generate, generate_trace, bind at 1 2. rewrite Hsp.
  unfold bind at 1, np_copy, bind at 1, deref. simpl. rewrite Hxs.
  unfold labels_supplied in Hlab. unfold bind at 1, resolve_targets.
  destruct (kw_y kw) as [[y|]|]; [done|..];
    unfold bind, get_self; simpl; rewrite Htgt; unfold raise;
    by eexists.
Qed.


(** ** Leaving the loop after the first iteration *)

(** The early exit as lines 107-112 make it, for targeted and untargeted
    runs alike.  Take a call to [generate] that returns.  If,
    for every sample of the batch, the fixed target label equals the arg-max
    of the prediction on the samples that the first perturb-and-project step
    produced, then the active set is empty after iteration 0, the loop makes
    no other iteration, and the returned batch is that single-step result:
    the original plus the projection of (the perturbed original minus the
    original). *)
Theorem early_exit_when_labels_match x kw s s' adv_x (its : list iteration) xs tls :
  generate_trace x kw s = (s', inr (adv_x, its)) →
  heap s !! x = Some xs →
  argmax_axis1 (targets_of kw xs) = Some tls →
  let c := apply_overrides kw (self s) in
  let labels := take (length xs) (targets_of kw xs) in
  let stepped := (_compute c (rng s) xs labels (eps_step c) (random_init c)).1 in
  let moved :=
    zip_with x_add xs (projection (zip_with x_sub stepped xs) (eps c) (norm c)) in
  argmax_axis1 (predict moved) = Some (take (length xs) tls) →
  ∃ it, its = [it] ∧ it_active_in it = seq 0 (length xs) ∧
        it_adv it = moved ∧ it_active_out it = [] ∧
        heap s' !! adv_x = Some moved.
Proof.
  intros Hgen Hxs Htls c labels stepped moved Hmatch.
  apply generate_trace_loop in Hgen. fold c in Hgen. clearbody c.
  destruct Hgen as (xs0 & tls0 & z & _ & _ & Hz & _ & Hxs0 & _ & Hne & Htls0 & Hloop).
  rewrite Hxs in Hxs0. injection Hxs0 as <-.
  rewrite Htls in Htls0. injection Htls0 as <-.
  destruct (Z.to_nat z) as [|n] eqn:Hn; [lia|]. simpl in Hloop.
  apply bind_ok in Hloop as (s1 & it & Hstep & Hloop).
  apply bim_step_inv in Hstep
    as (a0 & xs0 & cur & tg & stepped0 & g & cur' & orig & noise & batch & tl & am
        & Ha0 & Hxs0 & Hrange & Hcur & Htg & Hg & Hlen1 & Hcur' & Horig & Hnoise
        & Hlen2 & Hin & Hadv & Hbatch & Hpreds & Htl & Ham & Hlen3 & Hout
        & Hheap & Hself & Hrng & Hlog); [|done].
  simpl in Ha0, Hxs0, Hg, Hnoise, Hheap.
  rewrite lookup_insert_eq in Ha0. injection Ha0 as <-.
  rewrite lookup_insert_ne, Hxs in Hxs0 by done. injection Hxs0 as <-.
  rewrite gather_seq in Hcur, Horig. injection Hcur as <-. injection Horig as <-.
  apply gather_seq_take in Htg. subst tg. fold labels in Hg.
  assert (Hst : stepped0 = stepped) by (unfold stepped; by rewrite Hg).
  subst stepped0. rewrite length_seq in Hlen1.
  rewrite scatter_seq in Hcur', Hadv by done.
  rewrite Hlen1, gather_seq in Hcur'. injection Hcur' as <-.
  fold moved in Hnoise. subst noise.
  rewrite Hlen1, scatter_seq in Hadv
    by (by rewrite length_zip_with, <- Hlen2, Nat.min_id).
  fold moved in Hadv.
  assert (Hlenm : length moved = length xs).
  { unfold moved. by rewrite length_zip_with, <- Hlen2, Nat.min_id. }
  rewrite Hadv, <- Hlenm, gather_seq in Hbatch. injection Hbatch as <-.
  rewrite Hpreds, Hmatch in Ham. injection Ham as <-.
  apply gather_seq_take in Htl. subst tl. rewrite keep_same in Hout.
  rewrite Hout in Hloop. simpl in Hloop. apply ret_ok in Hloop as [-> ->].
  exists it. split_and!; try done.
  by rewrite Hheap, Hadv, lookup_insert_eq.
Qed.

(** ** [generate] returns *)

Lemma bind_intro {A B : Type} (m : M A) (k : A → M B) s s1 v :
  m s = (s1, inr v) → bind X G m k s = k v s1.
Proof. intros H. unfold bind. by rewrite H. Qed.

Lemma gather_is_Some {A : Type} (l : list A) idx :
  Forall (λ i, i < length l) idx → ∃ v, gather l idx = Some v.
Proof.
  intros H. apply mapM_is_Some_2. eapply Forall_impl; [exact H|].
  intros i Hi. by apply lookup_lt_is_Some_2.
Qed.

Lemma getitem_returns x idx s a v :
  heap s !! x = Some a → gather a idx = Some v →
  getitem X G x idx s = (s, inr v).
Proof.
  intros Ha Hv. unfold getitem, bind, deref. by rewrite Ha, Hv.
Qed.

Lemma setitem_returns x idx vals s a :
  heap s !! x = Some a → Forall (λ i, i < length a) idx →
  length idx = length vals →
  setitem X G x idx vals s
  = (with_heap (<[x := scatter idx vals a]> (heap s)) s, inr tt).
Proof.
  intros Ha Hr Hlen. unfold setitem, bind, deref, same_length. rewrite Ha.
  replace (forallb _ idx) with true.
  - by rewrite Hlen, Nat.eqb_refl.
  - symmetry. apply forallb_forall. intros i Hi. apply Nat.ltb_lt.
    rewrite Forall_forall in Hr. by apply Hr, list_elem_of_In.
Qed.

Lemma elementwise_returns op (u v : list X) s :
  length u = length v →
  elementwise X G op u v s = (s, inr (zip_with op u v)).
Proof.
  intros Hlen. unfold elementwise, bind, same_length.
  by rewrite Hlen, Nat.eqb_refl.
Qed.

Lemma argmax_axis1_is_Some (m : list (list Q)) :
  Forall (λ row, row ≠ []) m → ∃ am, argmax_axis1 m = Some am.
Proof.
  intros H. apply mapM_is_Some_2. eapply Forall_impl; [exact H|].
  intros [|q row] Hrow; [done|]. by eexists.
Qed.

Section Contracts.

(** The shape contracts of the collaborators: one output row per input row,
    and at least one class. *)
Hypothesis compute_length : ∀ c g batch labels step rinit,
  length (_compute c g batch labels step rinit).1 = length batch.
Hypothesis projection_length : ∀ d r o, length (projection d r o) = length d.
Hypothesis predict_length : ∀ batch, length (predict batch) = length batch.
Hypothesis predict_classes : ∀ batch, Forall (λ row, row ≠ []) (predict batch).

(** Under the contracts the body of the loop raises nothing. *)
Lemma bim_step_returns x adv_x targets tls act s a xs :
  x ≠ adv_x → heap s !! adv_x = Some a → heap s !! x = Some xs →
  length a = length xs → length tls = length targets →
  Forall (λ i, i < length a) act → Forall (λ i, i < length targets) act →
  ∃ s' it, bim_step x adv_x targets tls act s = (s', inr it).
Proof.
  intros Hne Ha Hxs Hlen Htls Hact Hact'.
  destruct (gather_is_Some a act Hact) as [cur Hcur].
  destruct (gather_is_Some targets act Hact') as [tg Htg].
  destruct (gather_is_Some tls act) as [tl Htl]; [by rewrite Htls|].
  destruct (gather_is_Some xs act) as [orig Horig]; [by rewrite <- Hlen|].
  unfold bim_step.
  rewrite (bind_intro _ _ _ _ _ (getitem_returns _ _ _ _ _ Ha Hcur)).
  rewrite Htg. simpl or_raise.
  rewrite (bind_intro _ _ s s tg eq_refl).
  rewrite (bind_intro _ _ s s (self s) eq_refl).
  destruct (_compute (self s) (rng s) cur tg (eps_step (self s))
              (random_init (self s))) as [stepped g] eqn:Hg.
  assert (Hstep_len : length act = length stepped).
  { pose proof (compute_length (self s) (rng s) cur tg (eps_step (self s))
                  (random_init (self s))) as Hc.
    rewrite Hg in Hc. simpl in Hc. rewrite Hc. symmetry.
    eapply gather_length, Hcur. }
  set (s1 := emit (EvCompute cur tg (eps_step (self s)) (random_init (self s)))
               (with_rng g s)).
  rewrite (bind_intro _ _ s s1 stepped) by (unfold call_compute; by rewrite Hg).
  rewrite (bind_intro _ _ _ _ _ (setitem_returns adv_x act stepped s1 a Ha Hact Hstep_len)).
  set (a1 := scatter act stepped a).
  set (s2 := with_heap (<[adv_x := a1]> (heap s1)) s1).
  assert (Ha1 : heap s2 !! adv_x = Some a1) by apply lookup_insert_eq.
  assert (Hxs2 : heap s2 !! x = Some xs) by (simpl; by rewrite lookup_insert_ne).
  assert (Hact1 : Forall (λ i, i < length a1) act).
  { unfold a1. by rewrite length_scatter. }
  destruct (gather_is_Some a1 act Hact1) as [cur' Hcur'].
  rewrite (bind_intro _ _ _ _ _ (getitem_returns _ _ _ _ _ Ha1 Hcur')).
  rewrite (bind_intro _ _ _ _ _ (getitem_returns _ _ _ _ _ Hxs2 Horig)).
  assert (Hlen_co : length cur' = length orig).
  { by rewrite (gather_length _ _ _ Hcur'), (gather_length _ _ _ Horig). }
  rewrite (bind_intro _ _ _ _ _ (elementwise_returns x_sub _ _ s2 Hlen_co)).
  rewrite (bind_intro _ _ s2 s2 (self s2) eq_refl).
  set (diff := zip_with x_sub cur' orig).
  set (noise := projection diff (eps (self s2)) (norm (self s2))).
  set (s3 := emit (EvProjection diff (eps (self s2)) (norm (self s2))) s2).
  rewrite (bind_intro _ _ s2 s3 noise eq_refl).
  assert (Hxs3 : heap s3 !! x = Some xs) by done.
  assert (Ha3 : heap s3 !! adv_x = Some a1) by done.
  rewrite (bind_intro _ _ _ _ _ (getitem_returns _ _ _ _ _ Hxs3 Horig)).
  assert (Hlen_on : length orig = length noise).
  { unfold noise, diff. rewrite projection_length, length_zip_with.
    rewrite Hlen_co. lia. }
  rewrite (bind_intro _ _ _ _ _ (elementwise_returns x_add _ _ s3 Hlen_on)).
  set (moved := zip_with x_add orig noise).
  assert (Hlen_m : length act = length moved).
  { unfold moved. rewrite length_zip_with, <- Hlen_on, Nat.min_id.
    symmetry. eapply gather_length, Horig. }
  rewrite (bind_intro _ _ _ _ _ (setitem_returns adv_x act moved s3 a1 Ha3 Hact1 Hlen_m)).
  set (a2 := scatter act moved a1).
  set (s4 := with_heap (<[adv_x := a2]> (heap s3)) s3).
  assert (Ha4 : heap s4 !! adv_x = Some a2) by apply lookup_insert_eq.
  assert (Hact2 : Forall (λ i, i < length a2) act).
  { unfold a2. by rewrite length_scatter. }
  destruct (gather_is_Some a2 act Hact2) as [batch Hbatch].
  rewrite (bind_intro _ _ _ _ _ (getitem_returns _ _ _ _ _ Ha4 Hbatch)).
  set (s5 := emit (EvPredict batch) s4).
  rewrite (bind_intro _ _ s4 s5 (predict batch) eq_refl).
  rewrite Htl. simpl or_raise.
  rewrite (bind_intro _ _ s5 s5 tl eq_refl).
  destruct (argmax_axis1_is_Some (predict batch) (predict_classes batch)) as [am Ham].
  rewrite Ham. simpl or_raise.
  rewrite (bind_intro _ _ s5 s5 am eq_refl).
  assert (Hlen_ta : length tl = length am).
  { rewrite (gather_length _ _ _ Htl).
    rewrite <- (length_mapM _ _ _ Ham), predict_length.
    symmetry. eapply gather_length, Hbatch. }
  rewrite (bind_intro _ _ s5 s5 tt)
    by (unfold same_length; by rewrite Hlen_ta, Nat.eqb_refl).
  rewrite gather_where
    by first [done | symmetry; eapply gather_length, Htl].
  simpl or_raise.
  rewrite (bind_intro _ _ s5 s5 (keep act tl am) eq_refl).
  assert (Ha5 : heap s5 !! adv_x = Some a2) by done.
  rewrite (bind_intro _ _ s5 s5 a2) by (unfold deref; by rewrite Ha5).
  by eexists _, _.
Qed.

Lemma bim_loop_returns n x adv_x targets tls act s a xs :
  x ≠ adv_x → heap s !! adv_x = Some a → heap s !! x = Some xs →
  length a = length xs → length tls = length targets →
  Forall (λ i, i < length a) act → Forall (λ i, i < length targets) act →
  ∃ s' its, bim_loop n x adv_x targets tls act s = (s', inr its).
Proof.
  intros Hne. revert act s a.
  induction n as [|n IH]; intros act s a Ha Hxs Hlen Htls Hact Hact'; simpl.
  { by eexists _, _. }
  destruct (bim_step_returns x adv_x targets tls act s a xs) as (s1 & it & Hstep);
    try done.
  rewrite (bind_intro _ _ _ _ _ Hstep).
  destruct (Nat.eqb _ 0); [by eexists _, _|].
  destruct (bim_step_ok _ _ _ _ _ _ _ _ _ _ Hne Ha Hxs Hstep)
    as (Hok & Hheap & _ & _).
  pose proof (step_ok_sublist _ _ _ _ _ _ Hok) as Hsub.
  pose proof (so_length _ _ _ _ _ _ _ _ _ _ Hok) as Hlen'.
  destruct (IH (it_active_out it) s1 (it_adv it)) as (s2 & rest & Hloop).
  - by rewrite Hheap, lookup_insert_eq.
  - by rewrite Hheap, lookup_insert_ne.
  - congruence.
  - done.
  - rewrite Hlen'. apply Forall_forall. intros i Hi.
    rewrite Forall_forall in Hact. apply Hact. by eapply elem_of_sublist.
  - apply Forall_forall. intros i Hi.
    rewrite Forall_forall in Hact'. apply Hact'. by eapply elem_of_sublist.
  - rewrite (bind_intro _ _ _ _ _ Hloop). by eexists _, _.
Qed.

Lemma resolve_targets_returns x kw s xs :
  heap s !! x = Some xs →
  (labels_supplied kw = false → targeted (self s) = false) →
  resolve_targets x (kw_y kw) s
  = (mkState X G (heap s) (self s) (rng s) (log s ++ label_events kw xs),
     inr (targets_of kw xs)).
Proof.
  intros Hxs Htgt. destruct s as [h c g l]. simpl in *.
  unfold resolve_targets, targets_of, label_events, labels_supplied in *.
  destruct (kw_y kw) as [[y|]|].
  - unfold ret. by rewrite app_nil_r.
  - unfold bind, get_self, deref, call_predict, ret. simpl.
    rewrite (Htgt eq_refl). simpl. by rewrite Hxs.
  - unfold bind, get_self, deref, call_predict, ret. simpl.
    rewrite (Htgt eq_refl). simpl. by rewrite Hxs.
Qed.

Lemma get_labels_rows (preds : list (list Q)) :
  Forall (λ row, row ≠ []) preds →
  Forall (λ row, row ≠ []) (get_labels_np_array preds).
Proof.
  intros H. unfold get_labels_np_array. apply Forall_fmap.
  eapply Forall_impl; [exact H|]. intros [|q row] Hrow; [done|]. simpl.
  unfold one_hot. simpl. done.
Qed.

(** Under the shape contracts of the collaborators, a call to [generate]
    with a configuration that passes the checks, an integer [max_iter] and,
    when labels are supplied, one non-empty row of labels per sample,
    returns a batch. *)
Theorem generate_returns x kw s xs z :
  heap s !! x = Some xs →
  valid_config (apply_overrides kw (self s)) →
  max_iter (apply_overrides kw (self s)) = PyInt z →
  (labels_supplied kw = false → targeted (apply_overrides kw (self s)) = false) →
  (∀ y, kw_y kw = Some (Some y) →
        length y = length xs ∧ Forall (λ row, row ≠ []) y) →
  ∃ s' adv_x its,
    generate_trace x kw s = (s', inr (adv_x, its)) ∧
    generate x kw s = (s', inr adv_x).
Proof.
  intros Hxs Hvalid Hmax Htgt Hy.
  pose proof Hvalid as (Hv1 & Hv2 & Hv3).
  apply py_gt_false in Hv2. apply py_le0_false in Hv3.
  pose proof (set_params_eq kw s) as Hsp.
  set (c := apply_overrides kw (self s)) in *. clearbody c.
  simpl in Hsp. rewrite Hv1, Hv2, Hv3 in Hsp.
  assert (Hshape : length (targets_of kw xs) = length xs ∧
                   Forall (λ row, row ≠ []) (targets_of kw xs)).
  { unfold targets_of. destruct (kw_y kw) as [[y|]|] eqn:Hkw.
    - by apply Hy.
    - split; [|by apply get_labels_rows].
      unfold get_labels_np_array. by rewrite length_fmap.
    - split; [|by apply get_labels_rows].
      unfold get_labels_np_array. by rewrite length_fmap. }
  destruct Hshape as [Hlen_t Hrows].
  destruct (argmax_axis1_is_Some _ Hrows) as [tls Htls].
  set (adv_x := fresh (dom (heap s))).
  assert (Hnone : heap s !! adv_x = None) by apply not_elem_of_dom, is_fresh.
  assert (Hne : x ≠ adv_x) by (intros ->; congruence).
  set (s1 := with_heap (<[adv_x := xs]> (heap s)) (with_self c s)).
  assert (Hcopy : np_copy X G x (with_self c s) = (s1, inr adv_x)).
  { unfold np_copy, bind, deref. simpl. by rewrite Hxs. }
  assert (Hxs1 : heap s1 !! x = Some xs) by (simpl; by rewrite lookup_insert_ne).
  assert (Ha1 : heap s1 !! adv_x = Some xs) by apply lookup_insert_eq.
  pose proof (resolve_targets_returns x kw s1 xs Hxs1 Htgt) as Hres.
  set (s2 := mkState X G (heap s1) (self s1) (rng s1)
               (log s1 ++ label_events kw xs)) in Hres.
  destruct (bim_loop_returns (Z.to_nat z) x adv_x (targets_of kw xs) tls
              (seq 0 (length xs)) s2 xs xs) as (s' & its & Hloop); try done.
  { symmetry. exact (length_mapM _ _ _ Htls). }
  { apply Forall_forall. intros i Hi. apply elem_of_seq in Hi. lia. }
  { apply Forall_forall. intros i Hi. apply elem_of_seq in Hi. lia. }
  assert (Htrace : generate_trace x kw s = (s', inr (adv_x, its))).
  { unfold generate_trace.
    rewrite (bind_intro _ _ _ _ _ Hsp), (bind_intro _ _ _ _ _ Hcopy),
      (bind_intro _ _ _ _ _ Hres).
    rewrite Htls. simpl or_raise.
    rewrite (bind_intro _ _ s2 s2 tls eq_refl).
    rewrite (bind_intro _ _ s2 s2 xs)
      by (unfold deref; change (heap s2) with (heap s1); by rewrite Ha1).
    rewrite (bind_intro _ _ s2 s2 c eq_refl), Hmax. simpl py_range.
    rewrite (bind_intro _ _ s2 s2 (Z.to_nat z) eq_refl).
    by rewrite (bind_intro _ _ _ _ _ Hloop). }
  exists s', adv_x, its. split; [done|].
  unfold generate. by rewrite (bind_intro _ _ _ _ _ Htrace).
Qed.

(** X9.  Under the shape contracts of the collaborators, a call to
    [generate] on an empty batch, with a configuration that passes the
    checks and an integer [max_iter], returns an empty batch after exactly
    one iteration, which starts and ends with no active index. *)
Theorem empty_batch_returns_empty x kw s z :
  heap s !! x = Some [] →
  valid_config (apply_overrides kw (self s)) →
  max_iter (apply_overrides kw (self s)) = PyInt z →
  (labels_supplied kw = false → targeted (apply_overrides kw (self s)) = false) →
  (∀ y, kw_y kw = Some (Some y) → y = []) →
  ∃ s' adv_x it,
    generate_trace x kw s = (s', inr (adv_x, [it])) ∧
    generate x kw s = (s', inr adv_x) ∧
    heap s' !! adv_x = Some [] ∧
    it_active_in it = [] ∧ it_adv it = [] ∧ it_active_out it = [].
Proof.
  intros Hxs Hvalid Hmax Htgt Hy.
  destruct (generate_returns x kw s [] z Hxs Hvalid Hmax Htgt)
    as (s' & adv_x & its & Htrace & Hgen).
  { intros y Hkw. by rewrite (Hy y Hkw). }
  pose proof Htrace as Hinv.
  apply generate_trace_inv in Hinv
    as (xs0 & tls & z0 & out & evs & _ & _ & _ & _ & Hxs0 & _ & _ & _ & Hrun
        & Hheap & _ & _ & _ & Hne & _).
  rewrite Hxs in Hxs0. injection Hxs0 as <-. simpl in Hrun.
  destruct (run_ok_length _ _ _ _ _ _ _ Hrun) as [Hlen _].
  apply nil_length_inv in Hlen. subst out.
  inversion Hrun as [|a0 act0 it rest a0' Hstep Hbreak Hrest]; subst; [done|].
  pose proof (step_ok_sublist _ _ _ _ _ _ Hstep) as Hsub.
  apply sublist_nil_r in Hsub. rewrite (Hbreak Hsub) in Htrace.
  exists s', adv_x, it. split_and!; try done.
  - by rewrite Hheap, lookup_insert_eq.
  - by apply (so_active_in _ _ _ _ _ _ _ _ _ _ Hstep).
  - apply nil_length_inv. by apply (so_length _ _ _ _ _ _ _ _ _ _ Hstep).
Qed.

End Contracts.

(** ** What [generate] leaves on the instance *)

Lemma preserves_bind {A B C : Type} (f : state → C) (m : M A) (k : A → M B) :
  preserves f m → (∀ v, preserves f (k v)) → preserves f (bind X G m k).
Proof.
  intros Hm Hk s s' r H. apply bind_inv in H as [(e & H & _)|(s1 & v & H1 & H2)].
  - by eapply Hm.
  - rewrite (Hk v _ _ _ H2). by eapply Hm.
Qed.

Lemma preserves_pure {A C : Type} (f : state → C) (m : M A) :
  (∀ s, (m s).1 = s) → preserves f m.
Proof.
  intros Hm s s' r H. specialize (Hm s). rewrite H in Hm. simpl in Hm. by subst s'.
Qed.

Lemma preserves_or_raise {A C : Type} (f : state → C) e (o : option A) :
  preserves f (or_raise X G e o).
Proof. apply preserves_pure. by destruct o. Qed.

Lemma preserves_same_length {A B C : Type} (f : state → C) (u : list A) (v : list B) :
  preserves f (same_length X G u v).
Proof.
  apply preserves_pure. intros s. unfold same_length. by destruct (Nat.eqb _ _).
Qed.

Lemma preserves_deref {C : Type} (f : state → C) x : preserves f (deref X G x).
Proof. apply preserves_pure. intros s. unfold deref. by destruct (heap s !! x). Qed.

Lemma preserves_getitem {C : Type} (f : state → C) x idx :
  preserves f (getitem X G x idx).
Proof.
  apply preserves_bind; [apply preserves_deref|]. intros v. apply preserves_or_raise.
Qed.

Lemma preserves_elementwise {C : Type} (f : state → C) op (u v : list X) :
  preserves f (elementwise X G op u v).
Proof.
  apply preserves_bind; [apply preserves_same_length|]. intros _.
  by apply preserves_pure.
Qed.

(** No step of the loop assigns an attribute of [self]. *)
Lemma preserves_self_setitem adv_x idx vals :
  preserves self (setitem X G adv_x idx vals).
Proof.
  apply preserves_bind; [apply preserves_deref|]. intros a.
  destruct (forallb _ idx); [|by apply preserves_pure].
  apply preserves_bind; [apply preserves_same_length|]. by intros _ s s' r [= <- _].
Qed.

Lemma preserves_self_bim_step x adv_x targets tls act :
  preserves self (bim_step x adv_x targets tls act).
Proof.
  unfold bim_step.
  repeat first
    [ apply preserves_getitem | apply preserves_or_raise
    | apply preserves_elementwise | apply preserves_same_length
    | apply preserves_deref | apply preserves_self_setitem
    | by apply preserves_pure
    | by intros s s' r [= <- _]
    | by (intros s s' r; unfold call_compute;
          destruct (_compute _ _ _ _ _ _); intros [= <- _])
    | apply preserves_bind; [|intros ?] ].
Qed.

Lemma preserves_self_bim_loop n x adv_x targets tls act :
  preserves self (bim_loop n x adv_x targets tls act).
Proof.
  revert act. induction n as [|n IH]; intros act; simpl.
  - by apply preserves_pure.
  - apply preserves_bind; [apply preserves_self_bim_step|]. intros it.
    destruct (Nat.eqb _ _); [by apply preserves_pure|].
    apply preserves_bind; [apply IH|]. intros rest. by apply preserves_pure.
Qed.

Lemma preserves_self_resolve_targets x y : preserves self (resolve_targets x y).
Proof.
  unfold resolve_targets. destruct y as [[y|]|]; [by apply preserves_pure|..];
    (apply preserves_bind; [by apply preserves_pure|]; intros c;
     destruct (targeted c); [by apply preserves_pure|];
     apply preserves_bind; [apply preserves_deref|]; intros xs;
     apply preserves_bind; [by intros s s' r [= <- _]|]; intros preds;
     by apply preserves_pure).
Qed.

Lemma preserves_self_np_copy x : preserves self (np_copy X G x).
Proof.
  apply preserves_bind; [apply preserves_deref|]. by intros a s s' r [= <- _].
Qed.

Lemma generate_trace_self x kw s s' r :
  generate_trace x kw s = (s', r) → self s' = apply_overrides kw (self s).
Proof.
  unfold generate_trace. intros H.
  apply bind_inv in H as [(e & H & _)|(s1 & b & H1 & H)].
  { rewrite set_params_eq in H. by injection H as <- _. }
  rewrite set_params_eq in H1. injection H1 as <- _.
  match type of H with
  | ?m _ = _ => assert (Hp : preserves self m)
  end.
  { apply preserves_bind; [apply preserves_self_np_copy|]. intros adv_x.
    apply preserves_bind; [apply preserves_self_resolve_targets|]. intros targets.
    apply preserves_bind; [apply preserves_or_raise|]. intros target_labels.
    apply preserves_bind; [apply preserves_deref|]. intros adv.
    apply preserves_bind; [by apply preserves_pure|]. intros c.
    apply preserves_bind.
    { apply preserves_pure. intros s0. by destruct (max_iter c). }
    intros n. apply preserves_bind; [apply preserves_self_bim_loop|]. intros its.
    by apply preserves_pure. }
  by rewrite (Hp _ _ _ H).
Qed.

(** X3.  Whatever the outcome of a call to [generate], the instance holds
    afterwards the attributes it had with the overrides of the call stored
    over them: the overrides are kept for later calls, also when the call
    raised, and nothing else of the instance is changed. *)
Theorem overrides_persist x kw s s' r :
  generate x kw s = (s', r) → self s' = apply_overrides kw (self s).
Proof.
  unfold generate. intros H.
  apply bind_inv in H as [(e & H & _)|(s1 & v & H1 & H)].
  - by eapply generate_trace_self.
  - injection H as <- _. by eapply generate_trace_self.
Qed.

(** ** Where the errors come from *)

Lemma config_not_runtime e : invalid_configuration e → runtime_error e → False.
Proof.
  unfold invalid_configuration, runtime_error. intros Hc Hr.
  destruct Hc as [->|[->|[->|[->| ->]]]];
    destruct Hr as [Hr|[Hr|[Hr|[Hr|Hr]]]]; discriminate Hr.
Qed.

Lemma raises_only_bind {A B : Type} P (m : M A) (k : A → M B) :
  raises_only P m → (∀ v, raises_only P (k v)) → raises_only P (bind X G m k).
Proof.
  intros Hm Hk s s' e H. apply bind_err in H as [H|(s1 & v & _ & H)].
  - by eapply Hm.
  - by eapply Hk.
Qed.

Lemma raises_only_ret {A : Type} P (v : A) : raises_only P (ret X G v).
Proof. by intros s s' e. Qed.

Lemma raises_only_raise {A : Type} (P : error → Prop) e :
  P e → raises_only P (raise X G (A:=A) e).
Proof. intros He s s' e' [= _ <-]. done. Qed.

Lemma raises_only_or_raise {A : Type} (P : error → Prop) e (o : option A) :
  P e → raises_only P (or_raise X G e o).
Proof.
  intros He. destruct o; [apply raises_only_ret|by apply raises_only_raise].
Qed.

Lemma raises_only_same_length {A B : Type} (u : list A) (v : list B) :
  raises_only runtime_error (same_length X G u v).
Proof.
  unfold same_length. destruct (Nat.eqb _ _); [apply raises_only_ret|].
  apply raises_only_raise. unfold runtime_error. auto.
Qed.

Lemma raises_only_deref x : raises_only runtime_error (deref X G x).
Proof.
  intros s s' e. unfold deref. destruct (heap s !! x); [done|].
  intros [= _ <-]. unfold runtime_error. auto.
Qed.

Lemma raises_only_getitem x idx : raises_only runtime_error (getitem X G x idx).
Proof.
  apply raises_only_bind; [apply raises_only_deref|]. intros a.
  apply raises_only_or_raise. unfold runtime_error. auto.
Qed.

Lemma raises_only_setitem x idx vals :
  raises_only runtime_error (setitem X G x idx vals).
Proof.
  apply raises_only_bind; [apply raises_only_deref|]. intros a.
  destruct (forallb _ idx).
  - apply raises_only_bind; [apply raises_only_same_length|]. by intros _ s s' e.
  - apply raises_only_raise. unfold runtime_error. auto.
Qed.

Lemma raises_only_elementwise op (u v : list X) :
  raises_only runtime_error (elementwise X G op u v).
Proof.
  apply raises_only_bind; [apply raises_only_same_length|]. intros _.
  apply raises_only_ret.
Qed.

(** The loop raises no configuration error. *)
Lemma raises_only_bim_step x adv_x targets tls act :
  raises_only runtime_error (bim_step x adv_x targets tls act).
Proof.
  unfold bim_step.
  repeat first
    [ apply raises_only_ret | apply raises_only_getitem
    | apply raises_only_setitem | apply raises_only_elementwise
    | apply raises_only_same_length | apply raises_only_deref
    | apply raises_only_or_raise; unfold runtime_error; by auto
    | by intros s s' e
    | by (intros s s' e; unfold call_compute; destruct (_compute _ _ _ _ _ _))
    | apply raises_only_bind; [|intros ?] ].
Qed.

Lemma raises_only_bim_loop n x adv_x targets tls act :
  raises_only runtime_error (bim_loop n x adv_x targets tls act).
Proof.
  revert act. induction n as [|n IH]; intros act; simpl.
  - apply raises_only_ret.
  - apply raises_only_bind; [apply raises_only_bim_step|]. intros it.
    destruct (Nat.eqb _ _); [apply raises_only_ret|].
    apply raises_only_bind; [apply IH|]. intros rest. apply raises_only_ret.
Qed.

Lemma resolve_targets_err x y s s' e :
  resolve_targets x y s = (s', inl e) →
  s' = s ∧ (e = ValueError_targets ∨ e = ReferenceError).
Proof.
  unfold resolve_targets. destruct y as [[y|]|]; [done|..];
    (unfold bind, get_self, deref, call_predict, ret, raise;
     destruct (targeted (self s)); [intros [= <- <-]; auto|];
     destruct (heap s !! x); [done|]; intros [= <- <-]; auto).
Qed.

Lemma generate_trace_config_error x kw s s' e :
  generate_trace x kw s = (s', inl e) → invalid_configuration e →
  ((set_params kw s).2 = inl e ∨ e = ValueError_targets) ∧
  log s' = log s ∧ rng s' = rng s.
Proof.
  intros Htrace Hcfg. unfold generate_trace in Htrace.
  apply bind_err in Htrace as [H|(s1 & b & H1 & H)].
  { rewrite set_params_eq in H |- *. injection H as <- He.
    split; [by left|done]. }
  rewrite set_params_eq in H1. injection H1 as <- _.
  apply bind_err in H as [H|(s2 & adv & H1 & H)].
  { destruct (config_not_runtime e Hcfg). unfold np_copy in H.
    apply bind_err in H as [H|(s2 & a & _ & H)]; [|done].
    by eapply raises_only_deref. }
  apply np_copy_ok in H1 as (xs & _ & _ & _ & ->).
  apply bind_err in H as [H|(s3 & targets & _ & H)].
  { apply resolve_targets_err in H as [-> [-> | ->]]; [split; [by right|done]|].
    destruct (config_not_runtime ReferenceError Hcfg). unfold runtime_error. auto. }
  destruct (config_not_runtime e Hcfg). revert H.
  match goal with
  | |- ?m _ = _ → _ => assert (Hr : raises_only runtime_error m)
  end.
  { apply raises_only_bind.
    { apply raises_only_or_raise. unfold runtime_error. auto. }
    intros tls. apply raises_only_bind; [apply raises_only_deref|]. intros a.
    apply raises_only_bind; [by intros s0 s0' e0|]. intros c.
    apply raises_only_bind.
    { destruct (max_iter c); [apply raises_only_ret|].
      apply raises_only_raise. unfold runtime_error. auto. }
    intros n. apply raises_only_bind; [apply raises_only_bim_loop|]. intros its.
    apply raises_only_ret. }
  intros H. by eapply Hr.
Qed.

(** X7.  When a call to [generate] raises an invalid-configuration error,
    the error is the one that [set_params] raises on the overridden
    attributes or the missing-labels error, and it was raised before any
    collaborator was called: the log of calls and the random generator are
    as they were, and so is every array of the caller.  Errors raised once
    the loop is reached belong to numpy, [range] or the store. *)
Theorem configuration_errors_come_first x kw s s' e :
  generate x kw s = (s', inl e) → invalid_configuration e →
  ((set_params kw s).2 = inl e ∨ e = ValueError_targets) ∧
  log s' = log s ∧ rng s' = rng s ∧
  (∀ l, is_Some (heap s !! l) → heap s' !! l = heap s !! l).
Proof.
  intros Hgen Hcfg.
  assert (Htrace : generate_trace x kw s = (s', inl e)).
  { unfold generate in Hgen.
    by apply bind_err in Hgen as [H|(s1 & v & _ & H)]. }
  pose proof (generate_trace_frame _ _ _ _ _ Htrace) as [Hframe _].
  destruct (generate_trace_config_error _ _ _ _ _ Htrace Hcfg) as (H1 & H2 & H3).
  done.
Qed.

(** ** The calls of the loop *)

Lemma loop_calls_length c targets (its : list iteration) evs :
  loop_calls c targets its evs → length evs = 3 * length its.
Proof.
  induction 1 as [|it rest evs1 evs2 (cur & tg & d & batch & -> & _) _ IH]; [done|].
  simpl in *. lia.
Qed.

Lemma bim_loop_calls n x adv_x targets tls act s s' (its : list iteration) :
  x ≠ adv_x →
  bim_loop n x adv_x targets tls act s = (s', inr its) →
  ∃ evs, log s' = log s ++ evs ∧ loop_calls (self s) targets its evs.
Proof.
  intros Hne. revert act s its.
  induction n as [|n IH]; intros act s its H; simpl in H.
  - apply ret_ok in H as [-> ->]. exists []. split; [by rewrite app_nil_r|constructor].
  - apply bind_ok in H as (s1 & it & Hstep & H).
    apply bim_step_inv in Hstep
      as (a0 & xs0 & cur & tg & stepped & g & cur' & orig & noise & batch & tl & am
          & _ & _ & _ & Hcur & Htg & _ & _ & Hcur' & Horig & _ & _ & Hin & _
          & Hbatch & _ & _ & _ & _ & _ & _ & Hself & _ & Hlog); [|done].
    assert (Hcalls : iteration_calls (self s) targets it
              [EvCompute cur tg (eps_step (self s)) (random_init (self s));
               EvProjection (zip_with x_sub cur' orig) (eps (self s)) (norm (self s));
               EvPredict batch]).
    { exists cur, tg, (zip_with x_sub cur' orig), batch. rewrite Hin.
      split_and!; try done.
      - eapply gather_length, Hcur.
      - rewrite length_zip_with, (gather_length _ _ _ Hcur'),
          (gather_length _ _ _ Horig). lia. }
    destruct (Nat.eqb _ 0).
    + apply ret_ok in H as [-> ->]. eexists. split; [exact Hlog|].
      rewrite <- (app_nil_r [_; _; _]). by repeat constructor.
    + apply bind_ok in H as (s2 & rest & Hloop & H). apply ret_ok in H as [-> ->].
      destruct (IH _ _ _ Hloop) as (evs & Hlog' & Hrest). rewrite Hself in Hrest.
      eexists. split.
      * rewrite Hlog', Hlog, <- app_assoc. reflexivity.
      * by constructor.
Qed.

(** X5.  In a call to [generate] that returns, the collaborators are called
    as follows after label resolution: every iteration calls the perturber,
    then the projection, then the classifier, once each and on as many rows
    as there are active indices; the perturber receives the labels of the
    active rows with the step size and the random-init flag of the instance
    as the overrides of the call left them, in every iteration, and the
    projection receives the budget and the norm likewise.  At least one
    iteration runs. *)
Theorem collaborator_calls_per_iteration x kw s s' adv_x (its : list iteration) xs :
  generate_trace x kw s = (s', inr (adv_x, its)) →
  heap s !! x = Some xs →
  ∃ evs, log s' = log s ++ label_events kw xs ++ evs ∧
    loop_calls (apply_overrides kw (self s)) (targets_of kw xs) its evs ∧
    length evs = 3 * length its ∧ 1 ≤ length its.
Proof.
  intros Hgen Hxs. pose proof Hgen as Hgen'.
  apply generate_trace_inv in Hgen'
    as (xs1 & _ & _ & _ & _ & _ & _ & _ & _ & Hxs1 & _ & _ & _ & _ & _ & _ & _ & _
        & Hne & _).
  apply generate_trace_loop in Hgen
    as (xs0 & tls & z & _ & _ & _ & _ & Hxs0 & _ & Hneq & _ & Hloop).
  rewrite Hxs in Hxs0. injection Hxs0 as <-.
  apply bim_loop_calls in Hloop as (evs & Hlog & Hcalls); [|done].
  simpl in Hlog, Hcalls. exists evs. split_and!.
  - by rewrite Hlog, app_assoc.
  - done.
  - by eapply loop_calls_length.
  - destruct its; [done|simpl; lia].
Qed.

(** ** The shape of the active indices *)

(** X6.  In a call to [generate] that returns, the active indices that an
    iteration starts from and those it leaves are sublists of
    [0, 1, ..., N-1], [N] being the number of samples: they are in
    increasing order, hold no index twice and stay within the batch. *)
Theorem active_indices_increasing_in_range x kw s s' adv_x
    (its : list iteration) xs k it :
  generate_trace x kw s = (s', inr (adv_x, its)) →
  heap s !! x = Some xs → its !! k = Some it →
  it_active_in it `sublist_of` seq 0 (length xs) ∧
  it_active_out it `sublist_of` seq 0 (length xs) ∧
  NoDup (it_active_in it) ∧ NoDup (it_active_out it) ∧
  Forall (λ i, i < length xs) (it_active_in it) ∧
  Forall (λ i, i < length xs) (it_active_out it).
Proof.
  intros Hgen Hxs Hk.
  apply generate_trace_inv in Hgen
    as (xs0 & tls & z & out & evs & _ & _ & _ & _ & Hxs0 & _ & _ & _ & Hrun & _).
  rewrite Hxs in Hxs0. injection Hxs0 as <-.
  destruct (run_ok_lookup _ _ _ _ _ _ _ _ _ Hrun Hk) as (Hsub & [ak Hstep] & _ & _).
  pose proof (step_ok_sublist _ _ _ _ _ _ Hstep) as Hout.
  rewrite <- (so_active_in _ _ _ _ _ _ _ _ _ _ Hstep) in Hsub, Hout.
  assert (Hout' : it_active_out it `sublist_of` seq 0 (length xs)) by by etrans.
  assert (Hrange : ∀ l : list nat, l `sublist_of` seq 0 (length xs) →
            NoDup l ∧ Forall (λ i, i < length xs) l).
  { intros l Hl. split; [eapply sublist_NoDup; [apply NoDup_seq|done]|].
    apply Forall_forall. intros i Hi.
    assert (Hin : i ∈ seq 0 (length xs)) by by eapply elem_of_sublist.
    apply elem_of_seq in Hin. lia. }
  destruct (Hrange _ Hsub), (Hrange _ Hout'). done.
Qed.

(** ** Constructor and reconfiguration *)

(** X1.  On a norm and a budget that pass the base checks, [set_params] and
    the constructor make the same checks of their own in the same order: on
    the attributes that the overrides leave, [set_params] raises exactly
    the error that the constructor raises on these values as arguments, and
    it answers [True] exactly when the constructor builds an instance. *)
Theorem set_params_agrees_with_constructor kw s e :
  fgm_validate (norm (apply_overrides kw (self s)))
               (eps (apply_overrides kw (self s))) = None →
  let c := apply_overrides kw (self s) in
  ((set_params kw s).2 = inl e ↔
   __init__ (norm c) (eps c) (eps_step c) (max_iter c) (targeted c) (random_init c)
     = inl e) ∧
  ((set_params kw s).2 = inr true ↔
   ∃ c', __init__ (norm c) (eps c) (eps_step c) (max_iter c) (targeted c)
           (random_init c) = inr c').
Proof.
  intros Hv c. pose proof (set_params_eq kw s) as Hsp. fold c in Hsp, Hv.
  clearbody c. rewrite Hsp. unfold __init__. simpl. rewrite Hv.
  destruct (py_gt (eps_step c) (eps c)).
  { split; [split; intros [= <-]; reflexivity|]. split; [done|]. by intros [c' ?]. }
  destruct (py_le0 (max_iter c)).
  { split; [split; intros [= <-]; reflexivity|]. split; [done|]. by intros [c' ?]. }
  split; [done|]. split; [|done]. intros _. by eexists.
Qed.

(** Truncation of a positive float is its floor. *)
Lemma py_int_floor (q : Q) :
  (0 < q)%Q →
  (0 <= py_int (PyFloat q))%Z ∧
  (inject_Z (py_int (PyFloat q)) <= q)%Q ∧
  (q < inject_Z (py_int (PyFloat q) + 1))%Q.
Proof.
  intros Hq. simpl.
  assert (Hnum : (0 < Qnum q)%Z).
  { destruct q as [n d]. unfold Qlt in Hq. simpl in *. lia. }
  assert (Hfl : (Qnum q ÷ Z.pos (Qden q))%Z = Qfloor q).
  { destruct q as [n d]. simpl in *. apply Z.quot_div_nonneg; lia. }
  rewrite Hfl. split_and!.
  - rewrite <- Hfl. apply Z.quot_pos; lia.
  - apply Qfloor_le.
  - apply Qlt_floor.
Qed.

(** X10.  An instance that the constructor builds holds the arguments it was
    given, with [max_iter] stored as an integer that is not negative: an
    [int] is stored as it is, a [float] as its integer part, the largest
    integer that does not exceed it. *)
Theorem constructor_stores_floor nrm e e_step m_iter tgt rinit c :
  __init__ nrm e e_step m_iter tgt rinit = inr c →
  norm c = nrm ∧ eps c = e ∧ eps_step c = e_step ∧
  targeted c = tgt ∧ random_init c = rinit ∧
  ∃ n, max_iter c = PyInt n ∧ (0 <= n)%Z ∧
    match m_iter with
    | PyInt z => n = z
    | PyFloat q => (inject_Z n <= q)%Q ∧ (q < inject_Z (n + 1))%Q
    end.
Proof.
  unfold __init__. destruct (fgm_validate nrm e); [done|].
  destruct (py_gt e_step e); [done|].
  destruct (py_le0 m_iter) eqn:Hle; [done|]. intros [= <-]. simpl.
  split_and!; try done. apply py_le0_false in Hle.
  exists (py_int m_iter). split; [done|].
  destruct m_iter as [z|q]; simpl in Hle.
  - simpl. split; [lia|done].
  - destruct (py_int_floor q Hle) as (H0 & H1 & H2). done.
Qed.

(** X2.  An instance built by the constructor from a norm and a budget
    that pass the base checks and from a [max_iter] of at least 1 passes
    [set_params] without overrides, which leaves the whole state as it is:
    a call to [generate] without overrides on such a freshly built attack
    does not fail in reconfiguration. *)
Theorem constructed_attack_passes_reconfiguration
    nrm e e_step m_iter tgt rinit c s :
  fgm_validate nrm e = None →
  __init__ nrm e e_step m_iter tgt rinit = inr c →
  (1 <= py_int m_iter)%Z → self s = c →
  set_params no_kwargs s = (s, inr true) ∧ valid_config c.
Proof.
  intros Hv. unfold __init__. rewrite Hv.
  destruct (py_gt e_step e) eqn:Hgt; [done|].
  destruct (py_le0 m_iter) eqn:Hle; [done|]. intros [= <-] Hint Hself.
  rewrite set_params_eq. destruct s as [h c g l]. simpl in Hself. subst c.
  unfold with_self. simpl. rewrite Hv, Hgt.
  replace (py_int m_iter <=? 0)%Z with false by (symmetry; apply Z.leb_gt; lia).
  split; [done|]. split_and!; simpl; [done| |lia]. by apply py_gt_false.
Qed.

(** ** Errors met on the way to the loop *)

Lemma bind_intro_err {A B : Type} (m : M A) (k : A → M B) s s1 e :
  m s = (s1, inl e) → bind X G m k s = (s1, inl e).
Proof. intros H. unfold bind. by rewrite H. Qed.

(** Indexing with [range(n)] fails on an array of fewer than [n] rows. *)
Lemma gather_seq_None {A : Type} (l : list A) n :
  length l < n → gather l (seq 0 n) = None.
Proof.
  intros Hlt. apply mapM_None_2, Exists_exists. exists (length l). split.
  - apply elem_of_seq. lia.
  - by apply lookup_ge_None.
Qed.

(** The part of [generate] that comes before the loop, for a configuration
    that passes the checks. *)
Lemma generate_trace_prefix x kw s xs tls :
  heap s !! x = Some xs →
  valid_config (apply_overrides kw (self s)) →
  (labels_supplied kw = false → targeted (apply_overrides kw (self s)) = false) →
  argmax_axis1 (targets_of kw xs) = Some tls →
  ∃ adv_x s2,
    heap s !! adv_x = None ∧ x ≠ adv_x ∧
    s2 = mkState X G (<[adv_x := xs]> (heap s)) (apply_overrides kw (self s))
           (rng s) (log s ++ label_events kw xs) ∧
    generate_trace x kw s =
      bind X G (py_range X G (max_iter (apply_overrides kw (self s))))
        (λ n, bind X G
                (bim_loop n x adv_x (targets_of kw xs) tls (seq 0 (length xs)))
                (λ its, ret X G (adv_x, its))) s2.
Proof.
  intros Hxs Hvalid Htgt Htls.
  pose proof Hvalid as (Hv1 & Hv2 & Hv3).
  apply py_gt_false in Hv2. apply py_le0_false in Hv3.
  pose proof (set_params_eq kw s) as Hsp.
  set (c := apply_overrides kw (self s)) in *. clearbody c.
  simpl in Hsp. rewrite Hv1, Hv2, Hv3 in Hsp.
  set (adv_x := fresh (dom (heap s))).
  assert (Hnone : heap s !! adv_x = None) by apply not_elem_of_dom, is_fresh.
  assert (Hne : x ≠ adv_x) by (intros ->; congruence).
  set (s1 := with_heap (<[adv_x := xs]> (heap s)) (with_self c s)).
  assert (Hcopy : np_copy X G x (with_self c s) = (s1, inr adv_x)).
  { unfold np_copy, bind, deref. simpl. by rewrite Hxs. }
  assert (Hxs1 : heap s1 !! x = Some xs) by (simpl; by rewrite lookup_insert_ne).
  assert (Ha1 : heap s1 !! adv_x = Some xs) by apply lookup_insert_eq.
  pose proof (resolve_targets_returns x kw s1 xs Hxs1 Htgt) as Hres.
  set (s2 := mkState X G (heap s1) (self s1) (rng s1)
               (log s1 ++ label_events kw xs)) in Hres.
  exists adv_x, s2. split_and!; try done.
  unfold generate_trace.
  rewrite (bind_intro _ _ _ _ _ Hsp), (bind_intro _ _ _ _ _ Hcopy),
    (bind_intro _ _ _ _ _ Hres).
  rewrite Htls. simpl or_raise.
  rewrite (bind_intro _ _ s2 s2 tls eq_refl).
  rewrite (bind_intro _ _ s2 s2 xs)
    by (unfold deref; change (heap s2) with (heap s1); by rewrite Ha1).
  by rewrite (bind_intro _ _ s2 s2 c eq_refl).
Qed.

(** X4.  [set_params] stores a [max_iter] override as it is, without the
    [int()] of the constructor.  When the stored [max_iter] is a float, a
    call to [generate] that passes the checks raises the type error of
    [range] once the labels are resolved: the classifier has been queried
    for the labels if none were supplied, no iteration has run, and the
    caller's array is unchanged. *)
Theorem float_max_iter_raises_at_range x kw s xs tls q :
  heap s !! x = Some xs →
  valid_config (apply_overrides kw (self s)) →
  max_iter (apply_overrides kw (self s)) = PyFloat q →
  (labels_supplied kw = false → targeted (apply_overrides kw (self s)) = false) →
  argmax_axis1 (targets_of kw xs) = Some tls →
  ∃ s', generate x kw s = (s', inl TypeError_range) ∧
        log s' = log s ++ label_events kw xs ∧ rng s' = rng s ∧
        heap s' !! x = Some xs.
Proof.
  intros Hxs Hvalid Hmax Htgt Htls.
  destruct (generate_trace_prefix x kw s xs tls Hxs Hvalid Htgt Htls)
    as (adv_x & s2 & Hnone & Hne & Hs2 & Htrace).
  rewrite Hmax in Htrace. exists s2. split_and!.
  - unfold generate. apply bind_intro_err. by rewrite Htrace.
  - by subst s2.
  - by subst s2.
  - subst s2. simpl. by rewrite lookup_insert_ne.
Qed.

(** X8.  When the supplied labels [y] have fewer rows than the batch, a call
    to [generate] that passes the checks raises numpy's index error in the
    first iteration, at [targets[active_indices]] of line 100: no
    collaborator has been called and the caller's array is unchanged. *)
Theorem too_few_label_rows_raise x kw s xs y tls z :
  heap s !! x = Some xs →
  valid_config (apply_overrides kw (self s)) →
  max_iter (apply_overrides kw (self s)) = PyInt z →
  kw_y kw = Some (Some y) → argmax_axis1 y = Some tls →
  length y < length xs →
  ∃ s', generate x kw s = (s', inl IndexError) ∧
        log s' = log s ∧ rng s' = rng s ∧ heap s' !! x = Some xs.
Proof.
  intros Hxs Hvalid Hmax Hkw Htls Hlt.
  assert (Hlab : labels_supplied kw = true) by (unfold labels_supplied; by rewrite Hkw).
  assert (Htargets : targets_of kw xs = y) by (unfold targets_of; by rewrite Hkw).
  destruct (generate_trace_prefix x kw s xs tls Hxs Hvalid)
    as (adv_x & s2 & Hnone & Hne & Hs2 & Htrace).
  { rewrite Hlab. done. }
  { by rewrite Htargets. }
  assert (Hz : (0 < z)%Z).
  { destruct Hvalid as (_ & _ & Hpos). by rewrite Hmax in Hpos. }
  rewrite Hmax, Htargets in Htrace. simpl py_range in Htrace.
  rewrite (bind_intro _ _ s2 s2 (Z.to_nat z) eq_refl) in Htrace.
  destruct (Z.to_nat z) as [|n] eqn:Hn; [lia|].
  assert (Hstep : bim_step x adv_x y tls (seq 0 (length xs)) s2 = (s2, inl IndexError)).
  { unfold bim_step.
    rewrite (bind_intro _ _ s2 s2 xs).
    - by rewrite (gather_seq_None y (length xs) Hlt).
    - apply (getitem_returns _ _ _ xs); [|apply gather_seq].
      subst s2. simpl. apply lookup_insert_eq. }
  exists s2. split_and!.
  - unfold generate. apply bind_intro_err. rewrite Htrace.
    apply bind_intro_err. simpl. by apply bind_intro_err.
  - subst s2. simpl. unfold label_events. by rewrite Hlab, app_nil_r.
  - by subst s2.
  - subst s2. simpl. by rewrite lookup_insert_ne.
Qed.

(** ** Where the classifier is queried *)

(** X11.  In every iteration of a call to [generate] that returns, each row
    of the batch that the classifier is queried on at line 104 is the
    original row of the same sample plus a row that the projection
    returned for the configured budget and norm: the loop never queries the
    classifier on a row that was not re-anchored to the original input. *)
Theorem loop_queries_are_anchored x kw s s' adv_x (its : list iteration)
    xs k it j i xi :
  generate_trace x kw s = (s', inr (adv_x, its)) →
  heap s !! x = Some xs → its !! k = Some it →
  it_active_in it !! j = Some i → xs !! i = Some xi →
  ∃ batch d n,
    gather (it_adv it) (it_active_in it) = Some batch ∧
    it_preds it = predict batch ∧
    n ∈ projection d (eps (self s')) (norm (self s')) ∧
    batch !! j = Some (x_add xi n).
Proof.
  intros Hgen Hxs Hk Hj Hxi.
  apply generate_trace_inv in Hgen
    as (xs0 & tls & z & out & evs & _ & _ & _ & _ & Hxs0 & _ & _ & _ & Hrun
        & _ & Hself & _).
  rewrite Hxs in Hxs0. injection Hxs0 as <-.
  destruct (run_ok_lookup _ _ _ _ _ _ _ _ _ Hrun Hk) as (_ & [ak Hstep] & _ & _).
  destruct Hstep as [Hin _ _ Hmoved (batch & tl & am & Hbatch & Hpreds & _)].
  rewrite <- Hin in Hbatch, Hmoved.
  destruct (Hmoved i) as (xi' & d & n & Hxi' & Hn & Hv).
  { eapply list_elem_of_lookup_2, Hj. }
  rewrite Hxi in Hxi'. injection Hxi' as <-.
  exists batch, d, n. rewrite Hself. split_and!; try done.
  by rewrite (gather_lookup _ _ _ _ _ Hbatch Hj).
Qed.

End DriverFacts.

(** * The instance at work *)

Lemma demo_add_sub_exact (v n : Z) : (v + n - v)%Z = n.
Proof. lia. Qed.

Lemma demo_projects_into_ball :
  projects_into_ball Z demo_projection demo_in_ball demo_attack.
Proof.
  intros d. apply Forall_fmap, Forall_forall. intros v _.
  unfold demo_in_ball, Qle. simpl.
  replace ((10 * 3) `div` Z.pos (1 * 10))%Z with 3%Z by reflexivity. lia.
Qed.

Lemma demo_run_eq :
  demo_generate_trace 1%positive no_kwargs demo_s0
  = (demo_run.1, inr (2%positive, iterations_of demo_run)).
Proof. vm_compute. reflexivity. Qed.

Lemma demo_run_pair_eq :
  demo_generate_trace 1%positive no_kwargs demo_pair
  = (demo_run_pair.1, inr (2%positive, iterations_of demo_run_pair)).
Proof. vm_compute. reflexivity. Qed.

Lemma demo_run_opposite_eq :
  demo_generate_trace 1%positive demo_opposite demo_pair
  = (demo_run_opposite.1, inr (2%positive, iterations_of demo_run_opposite)).
Proof. vm_compute. reflexivity. Qed.

(** The collaborators of the instance keep the shape contracts, so that
    [generate] returns on the caller's batch. *)
Lemma demo_generate_returns :
  ∃ s' adv_x its,
    demo_generate_trace 1%positive no_kwargs demo_s0 = (s', inr (adv_x, its)) ∧
    demo_generate 1%positive no_kwargs demo_s0 = (s', inr adv_x).
Proof.
  apply (generate_returns Z Z.add Z.sub unit demo_predict demo_compute
           demo_projection) with (xs := demo_x) (z := 3%Z).
  - intros c g batch labels step rinit. simpl. by rewrite length_fmap.
  - intros d r o. unfold demo_projection. by rewrite length_fmap.
  - intros batch. unfold demo_predict. by rewrite length_fmap.
  - intros batch. unfold demo_predict. apply Forall_fmap, Forall_forall.
    intros v _. simpl. by destruct (2 <=? v)%Z.
  - reflexivity.
  - split_and!; [reflexivity | unfold Qle; simpl; lia | simpl; lia].
  - reflexivity.
  - reflexivity.
  - intros y Hy. discriminate.
Qed.

Lemma active_index_kept_iff_label_differs_witness :
  ∃ batch t row p,
    gather (it_adv demo_it0) (it_active_in demo_it0) = Some batch ∧
    it_preds demo_it0 = demo_predict batch ∧
    [0; 1; 0; 0] !! 3 = Some t ∧ it_preds demo_it0 !! 3 = Some row ∧
    argmax row = Some p ∧
    (3 ∈ it_active_out demo_it0 ↔ t ≠ p) ∧
    (3 ∉ it_active_out demo_it0 ↔ t = p).
Proof.
  apply (active_index_kept_iff_label_differs Z Z.add Z.sub unit demo_predict
           demo_compute demo_projection 1%positive no_kwargs demo_s0 demo_run.1
           2%positive (iterations_of demo_run) demo_x [0; 1; 0; 0] 0 demo_it0 3 3).
  - exact demo_run_eq.
  - reflexivity.
  - reflexivity.
  - reflexivity.
  - reflexivity.
Defined.

(** C1.  An untargeted run of the instance, without labels: the labels are
    the classifier's own answers on the batch, [0; 1; 0; 0].  After the
    first iteration the predictions are [0; 1; 0; 1]: sample 3 is the only
    one whose prediction no longer matches its label, and line 107 keeps it
    as the only active index; samples 0, 1 and 2, whose predictions still
    match their labels, are dropped. *)
Theorem untargeted_run_keeps_the_fooled_sample :
  targeted (self demo_s0) = false ∧ labels_supplied no_kwargs = false ∧
  demo_generate_trace 1%positive no_kwargs demo_s0
    = (demo_run.1, inr (2%positive, iterations_of demo_run)) ∧
  iterations_of demo_run !! 0 = Some demo_it0 ∧
  argmax_axis1 (targets_of Z demo_predict no_kwargs demo_x) = Some [0; 1; 0; 0] ∧
  argmax_axis1 (it_preds demo_it0) = Some [0; 1; 0; 1] ∧
  it_active_in demo_it0 = [0; 1; 2; 3] ∧
  it_active_out demo_it0 = [3] ∧
  ¬ (3 ∉ it_active_out demo_it0 ↔ 0 ≠ 1) ∧
  ¬ (0 ∈ it_active_out demo_it0 ↔ 0 = 0).
Proof.
  split_and!;
    [ reflexivity | reflexivity | vm_compute; reflexivity | reflexivity
    | reflexivity | reflexivity | reflexivity | reflexivity | |].
  - simpl. intros [_ H]. apply H; [done|]. by apply list_elem_of_singleton.
  - simpl. intros [_ H]. specialize (H eq_refl).
    apply list_elem_of_singleton in H. discriminate.
Qed.

Lemma perturbation_within_budget_witness :
  demo_in_ball (3 # 10) NormInf (1 - 0)%Z.
Proof.
  destruct (perturbation_within_budget Z Z.add Z.sub unit demo_predict demo_compute
              demo_projection demo_in_ball 1%positive no_kwargs
              demo_s0 demo_run.1 2%positive (iterations_of demo_run)
              demo_x [1; 6; 1; 4]%Z 0 0%Z 1%Z) as (n & _ & _ & Hsub).
  - exact demo_projects_into_ball.
  - exact demo_run_eq.
  - reflexivity.
  - reflexivity.
  - vm_compute. intros H. apply list_elem_of_singleton in H. discriminate.
  - reflexivity.
  - reflexivity.
  - apply Hsub, demo_add_sub_exact.
Defined.

Lemma early_exit_when_labels_match_witness :
  ∃ it, iterations_of demo_run_pair = [it] ∧ it_active_in it = [0; 1] ∧
        it_adv it = [1; 6]%Z ∧ it_active_out it = [] ∧
        heap demo_run_pair.1 !! 2%positive = Some [1; 6]%Z.
Proof.
  apply (early_exit_when_labels_match Z Z.add Z.sub unit demo_predict demo_compute
           demo_projection 1%positive no_kwargs demo_pair demo_run_pair.1
           2%positive (iterations_of demo_run_pair) [0; 5]%Z [0; 1]).
  - exact demo_run_pair_eq.
  - reflexivity.
  - reflexivity.
  - reflexivity.
Defined.

(** C3.  An untargeted run of the instance on the pair, with labels
    [1; 0].  After the first step the predictions are [0; 1]: every
    sample's label already differs from its prediction.  Yet line 107 keeps
    both indices active after iteration 0, the loop makes all three
    iterations, and the returned batch [2; 8] is not the single-step result
    [1; 6]. *)
Theorem untargeted_run_goes_on_when_all_fooled :
  targeted (apply_overrides demo_opposite (self demo_pair)) = false ∧
  demo_generate_trace 1%positive demo_opposite demo_pair
    = (demo_run_opposite.1, inr (2%positive, iterations_of demo_run_opposite)) ∧
  iterations_of demo_run_opposite !! 0 = Some demo_opposite_it0 ∧
  argmax_axis1 (targets_of Z demo_predict demo_opposite [0; 5]%Z) = Some [1; 0] ∧
  argmax_axis1 (it_preds demo_opposite_it0) = Some [0; 1] ∧
  it_active_out demo_opposite_it0 = [0; 1] ∧
  it_active_out demo_opposite_it0 ≠ [] ∧
  length (iterations_of demo_run_opposite) = 3 ∧
  it_adv demo_opposite_it0 = [1; 6]%Z ∧
  heap demo_run_opposite.1 !! 2%positive = Some [2; 8]%Z ∧
  heap demo_run_opposite.1 !! 2%positive ≠ Some (it_adv demo_opposite_it0).
Proof.
  split_and!;
    [ reflexivity | vm_compute; reflexivity | reflexivity | reflexivity
    | reflexivity | reflexivity | done | reflexivity | reflexivity
    | reflexivity | done ].
Qed.

Lemma active_set_only_shrinks_witness :
  (∀ k it, iterations_of demo_run !! k = Some it →
     it_active_in it = active_before (seq 0 (length demo_x)) (iterations_of demo_run) k ∧
     it_active_out it `sublist_of` it_active_in it ∧
     (∀ i, i ∈ it_active_out it → i ∈ it_active_in it) ∧
     length (it_active_out it) ≤ length (it_active_in it) ∧
     (it_active_out it = [] → length (iterations_of demo_run) = S k)) ∧
  ∃ z, max_iter (self demo_run.1) = PyInt z ∧
       length (iterations_of demo_run) ≤ Z.to_nat z ∧
       (length (iterations_of demo_run) < Z.to_nat z →
        final_active (seq 0 (length demo_x)) (iterations_of demo_run) = []).
Proof.
  apply (active_set_only_shrinks Z Z.add Z.sub unit demo_predict demo_compute
           demo_projection 1%positive no_kwargs demo_s0 demo_run.1 2%positive).
  - exact demo_run_eq.
  - reflexivity.
Defined.

Lemma inactive_rows_frozen_witness :
  length [1; 6; 1; 4]%Z = length demo_x ∧
  (∀ k it, iterations_of demo_run !! k = Some it →
     length (it_adv it) = length demo_x ∧
     ∀ i, i ∉ it_active_out it →
       [1; 6; 1; 4]%Z !! i = it_adv it !! i ∧
       ∀ k' it', k ≤ k' → iterations_of demo_run !! k' = Some it' →
                 it_adv it' !! i = it_adv it !! i) ∧
  (∀ it, last (iterations_of demo_run) = Some it → [1; 6; 1; 4]%Z = it_adv it).
Proof.
  apply (inactive_rows_frozen Z Z.add Z.sub unit demo_predict demo_compute
           demo_projection 1%positive no_kwargs demo_s0 demo_run.1 2%positive).
  - exact demo_run_eq.
  - reflexivity.
  - reflexivity.
Defined.

Lemma step_size_rejected_iff_exceeds_budget_witness :
  (__init__ NormInf (3 # 10) (5 # 10) (PyInt 20) false false
     = inl ValueError_eps_step ↔ (3 # 10 < 5 # 10)%Q) ∧
  ((set_params Z unit demo_big_step demo_s0).2 = inl ValueError_eps_step
     ↔ (3 # 10 < 5 # 10)%Q) ∧
  ∃ s', demo_generate 1%positive demo_big_step demo_s0
          = (s', inl ValueError_eps_step) ∧
        heap s' = heap demo_s0 ∧ rng s' = rng demo_s0 ∧ log s' = log demo_s0.
Proof.
  destruct (step_size_rejected_iff_exceeds_budget Z Z.add Z.sub unit demo_predict
              demo_compute demo_projection NormInf (3 # 10) (5 # 10) (PyInt 20)
              false false demo_big_step demo_s0 1%positive eq_refl eq_refl)
    as (Hinit & Hset & Hgen).
  split_and!; [exact Hinit | exact Hset | apply Hgen; reflexivity].
Defined.



Lemma input_never_mutated_or_aliased_witness :
  (∀ l, is_Some (heap demo_s0 !! l) → heap demo_run.1 !! l = heap demo_s0 !! l) ∧
  (∀ adv_x, @inr error loc 2%positive = inr adv_x →
     heap demo_s0 !! adv_x = None ∧ adv_x ≠ 1%positive ∧
     heap demo_run.1 !! 1%positive = heap demo_s0 !! 1%positive ∧
     is_Some (heap demo_s0 !! 1%positive) ∧
     is_Some (heap demo_run.1 !! adv_x)).
Proof.
  apply (input_never_mutated_or_aliased Z Z.add Z.sub unit demo_predict demo_compute
           demo_projection 1%positive no_kwargs demo_s0 demo_run.1 (inr 2%positive)).
  vm_compute. reflexivity.
Defined.

Lemma fractional_max_iter_blocks_generate_witness :
  ∃ c, __init__ NormInf (3 # 10) (1 # 10) (PyFloat (1 # 2)) false false = inr c ∧
    max_iter c = PyInt 0 ∧
    ∀ (s : demo_state) x kw, self s = c → kw_max_iter kw = None →
      ∃ s' err, demo_generate x kw s = (s', inl err) ∧ invalid_configuration err ∧
        heap s' = heap s ∧ rng s' = rng s ∧ log s' = log s ∧
        (kw_norm kw = None → kw_eps kw = None → kw_eps_step kw = None →
         err = ValueError_max_iter).
Proof.
  apply (fractional_max_iter_blocks_generate Z Z.add Z.sub unit demo_predict
           demo_compute demo_projection NormInf (3 # 10) (1 # 10) (1 # 2) false false).
  - reflexivity.
  - unfold Qle; simpl; lia.
  - reflexivity.
  - reflexivity.
Defined.

(** C10 as the specification words it fails on the instance: the
    constructor accepts [max_iter = 0.5] and stores 0, but the call to
    [generate] that follows does not return a copy of the batch; it raises
    the [max_iter] error. *)
Lemma fractional_max_iter_returns_copy_counterexample :
  __init__ NormInf (3 # 10) (1 # 10) (PyFloat (1 # 2)) false false
    = inr demo_attack_half ∧
  max_iter demo_attack_half = PyInt 0 ∧
  (demo_generate 1%positive no_kwargs demo_s0_half).2 = inl ValueError_max_iter ∧
  ¬ ∃ adv_x, (demo_generate 1%positive no_kwargs demo_s0_half).2 = inr adv_x.
Proof.
  split_and!; [reflexivity | reflexivity | reflexivity |].
  intros [adv_x H]. vm_compute in H. discriminate.
Qed.

(** ** Further runs of the instance *)

Lemma demo_valid_config : valid_config demo_attack.
Proof. split_and!; [reflexivity | unfold Qle; simpl; lia | simpl; lia]. Qed.

Lemma set_params_agrees_with_constructor_witness :
  ((set_params Z unit demo_big_step demo_s0).2 = inl ValueError_eps_step ↔
   __init__ NormInf (3 # 10) (5 # 10) (PyInt 3) false false
     = inl ValueError_eps_step) ∧
  ((set_params Z unit demo_big_step demo_s0).2 = inr true ↔
   ∃ c', __init__ NormInf (3 # 10) (5 # 10) (PyInt 3) false false = inr c').
Proof.
  exact (set_params_agrees_with_constructor Z unit demo_big_step demo_s0
           ValueError_eps_step eq_refl).
Defined.

Lemma constructed_attack_passes_reconfiguration_witness :
  set_params Z unit no_kwargs demo_s0 = (demo_s0, inr true) ∧
  valid_config demo_attack.
Proof.
  apply (constructed_attack_passes_reconfiguration Z unit NormInf (3 # 10)
           (1 # 10) (PyFloat (39 # 10)) false false demo_attack demo_s0).
  - reflexivity.
  - reflexivity.
  - vm_compute. intros H. discriminate H.
  - reflexivity.
Defined.

Lemma overrides_persist_witness :
  self (demo_generate 1%positive demo_big_step demo_s0).1
  = mkBIM NormInf (3 # 10) false false (5 # 10) (PyInt 3).
Proof.
  apply (overrides_persist Z Z.add Z.sub unit demo_predict demo_compute
           demo_projection 1%positive demo_big_step demo_s0 _
           (demo_generate 1%positive demo_big_step demo_s0).2).
  vm_compute. reflexivity.
Defined.

Lemma float_max_iter_raises_at_range_witness :
  ∃ s', demo_generate 1%positive demo_float_iter demo_s0
          = (s', inl TypeError_range) ∧
        log s' = log demo_s0 ++ label_events demo_float_iter demo_x ∧
        rng s' = rng demo_s0 ∧ heap s' !! 1%positive = Some demo_x.
Proof.
  apply (float_max_iter_raises_at_range Z Z.add Z.sub unit demo_predict
           demo_compute demo_projection 1%positive demo_float_iter demo_s0
           demo_x [0; 1; 0; 0] (5 # 2)).
  - reflexivity.
  - split_and!; [reflexivity | unfold Qle; simpl; lia | reflexivity].
  - reflexivity.
  - reflexivity.
  - reflexivity.
Defined.

Lemma collaborator_calls_per_iteration_witness :
  ∃ evs, log demo_run.1 = log demo_s0 ++ label_events no_kwargs demo_x ++ evs ∧
    loop_calls (apply_overrides no_kwargs (self demo_s0))
      (targets_of Z demo_predict no_kwargs demo_x) (iterations_of demo_run) evs ∧
    length evs = 3 * length (iterations_of demo_run) ∧
    1 ≤ length (iterations_of demo_run).
Proof.
  apply (collaborator_calls_per_iteration Z Z.add Z.sub unit demo_predict
           demo_compute demo_projection 1%positive no_kwargs demo_s0 demo_run.1
           2%positive).
  - exact demo_run_eq.
  - reflexivity.
Defined.

Lemma active_indices_increasing_in_range_witness :
  it_active_in demo_it0 `sublist_of` seq 0 (length demo_x) ∧
  it_active_out demo_it0 `sublist_of` seq 0 (length demo_x) ∧
  NoDup (it_active_in demo_it0) ∧ NoDup (it_active_out demo_it0) ∧
  Forall (λ i, i < length demo_x) (it_active_in demo_it0) ∧
  Forall (λ i, i < length demo_x) (it_active_out demo_it0).
Proof.
  apply (active_indices_increasing_in_range Z Z.add Z.sub unit demo_predict
           demo_compute demo_projection 1%positive no_kwargs demo_s0 demo_run.1
           2%positive (iterations_of demo_run) demo_x 0).
  - exact demo_run_eq.
  - reflexivity.
  - reflexivity.
Defined.

Lemma configuration_errors_come_first_witness :
  ((set_params Z unit demo_big_step demo_s0).2 = inl ValueError_eps_step ∨
   ValueError_eps_step = ValueError_targets) ∧
  log (demo_generate 1%positive demo_big_step demo_s0).1 = log demo_s0 ∧
  rng (demo_generate 1%positive demo_big_step demo_s0).1 = rng demo_s0 ∧
  (∀ l, is_Some (heap demo_s0 !! l) →
        heap (demo_generate 1%positive demo_big_step demo_s0).1 !! l
        = heap demo_s0 !! l).
Proof.
  apply (configuration_errors_come_first Z Z.add Z.sub unit demo_predict
           demo_compute demo_projection 1%positive demo_big_step demo_s0).
  - reflexivity.
  - unfold invalid_configuration. auto.
Defined.

Lemma too_few_label_rows_raise_witness :
  ∃ s', demo_generate 1%positive demo_one_label demo_pair = (s', inl IndexError) ∧
        log s' = log demo_pair ∧ rng s' = rng demo_pair ∧
        heap s' !! 1%positive = Some [0; 5]%Z.
Proof.
  apply (too_few_label_rows_raise Z Z.add Z.sub unit demo_predict demo_compute
           demo_projection 1%positive demo_one_label demo_pair [0; 5]%Z
           [[1%Q; 0%Q]] [0] 3%Z).
  - reflexivity.
  - exact demo_valid_config.
  - reflexivity.
  - reflexivity.
  - reflexivity.
  - simpl. lia.
Defined.

Lemma demo_compute_length c g batch labels step rinit :
  length (demo_compute c g batch labels step rinit).1 = length batch.
Proof. simpl. by rewrite length_fmap. Qed.

Lemma demo_projection_length d r o : length (demo_projection d r o) = length d.
Proof. unfold demo_projection. by rewrite length_fmap. Qed.

Lemma demo_predict_length batch : length (demo_predict batch) = length batch.
Proof. unfold demo_predict. by rewrite length_fmap. Qed.

Lemma demo_predict_classes batch : Forall (λ row, row ≠ []) (demo_predict batch).
Proof.
  unfold demo_predict. apply Forall_fmap, Forall_forall.
  intros v _. simpl. by destruct (2 <=? v)%Z.
Qed.

Lemma empty_batch_returns_empty_witness :
  ∃ s' adv_x it,
    demo_generate_trace 1%positive no_kwargs demo_empty = (s', inr (adv_x, [it])) ∧
    demo_generate 1%positive no_kwargs demo_empty = (s', inr adv_x) ∧
    heap s' !! adv_x = Some [] ∧
    it_active_in it = [] ∧ it_adv it = [] ∧ it_active_out it = [].
Proof.
  apply (empty_batch_returns_empty Z Z.add Z.sub unit demo_predict demo_compute
           demo_projection demo_compute_length demo_projection_length
           demo_predict_length demo_predict_classes 1%positive no_kwargs
           demo_empty 3%Z).
  - reflexivity.
  - exact demo_valid_config.
  - reflexivity.
  - reflexivity.
  - intros y Hy. discriminate Hy.
Defined.

Lemma constructor_stores_floor_witness :
  norm demo_attack = NormInf ∧ eps demo_attack = (3 # 10)%Q ∧
  eps_step demo_attack = (1 # 10)%Q ∧
  targeted demo_attack = false ∧ random_init demo_attack = false ∧
  ∃ n, max_iter demo_attack = PyInt n ∧ (0 <= n)%Z ∧
       (inject_Z n <= 39 # 10)%Q ∧ (39 # 10 < inject_Z (n + 1))%Q.
Proof.
  apply (constructor_stores_floor NormInf (3 # 10) (1 # 10) (PyFloat (39 # 10))
           false false demo_attack).
  reflexivity.
Defined.

Lemma loop_queries_are_anchored_witness :
  ∃ batch d n,
    gather (it_adv demo_it0) (it_active_in demo_it0) = Some batch ∧
    it_preds demo_it0 = demo_predict batch ∧
    n ∈ demo_projection d (eps (self demo_run.1)) (norm (self demo_run.1)) ∧
    batch !! 3 = Some (1 + n)%Z.
Proof.
  apply (loop_queries_are_anchored Z Z.add Z.sub unit demo_predict demo_compute
           demo_projection 1%positive no_kwargs demo_s0 demo_run.1 2%positive
           (iterations_of demo_run) demo_x 0 demo_it0 3 3 1%Z).
  - exact demo_run_eq.
  - reflexivity.
  - reflexivity.
  - reflexivity.
  - reflexivity.
Defined.

(** ** Rounding and the budget *)

(** The decimals of the run as binary64 numbers. *)
Lemma b64_round_values :
  b64_round (1 # 10) = (3602879701896397 # 36028797018963968)%Q ∧
  b64_round (3 # 10) = (5404319552844595 # 18014398509481984)%Q ∧
  b64_round (4 # 10) = (3602879701896397 # 9007199254740992)%Q ∧
  b64_add (b64_round (1 # 10)) (b64_round (3 # 10)) = b64_round (4 # 10) ∧
  b64_sub (b64_round (4 # 10)) (b64_round (1 # 10))
    = (1351079888211149 # 4503599627370496)%Q.
Proof. split_and!; vm_compute; reflexivity. Qed.

(** Clipping keeps the projection contract for every radius that is not
    negative. *)
Lemma b64_clip_in_ball (radius v : Q) :
  (0 <= radius)%Q → (Qabs (b64_clip radius v) <= radius)%Q.
Proof.
  intros Hr. unfold b64_clip.
  destruct (Qle_bool radius v) eqn:H1.
  { rewrite Qabs_pos by done. apply Qle_refl. }
  destruct (Qle_bool v (- radius)) eqn:H2.
  { rewrite Qabs_opp, Qabs_pos by done. apply Qle_refl. }
  apply Qabs_Qle_condition. split.
  - apply Qlt_le_weak, Qnot_le_lt. intros H. apply Qle_bool_iff in H. congruence.
  - apply Qlt_le_weak, Qnot_le_lt. intros H. apply Qle_bool_iff in H. congruence.
Qed.

Lemma b64_projects_into_ball :
  projects_into_ball Q b64_projection b64_in_ball b64_attack.
Proof.
  intros d. apply Forall_fmap, Forall_forall. intros v _.
  apply b64_clip_in_ball. by vm_compute.
Qed.

(** C2 as the specification words it fails with binary64 inputs.  The
    projection keeps its contract, the call returns, the only sample has
    left the active set, and the returned row 0.4 minus the original row 0.1
    is 0.30000000000000004, outside the ball of radius 0.3, whether the
    difference is rounded as numpy does or taken exactly. *)
Lemma perturbation_exceeds_budget_counterexample :
  projects_into_ball Q b64_projection b64_in_ball b64_attack ∧
  generate_trace Q b64_add b64_sub unit b64_predict b64_compute b64_projection
    1%positive b64_target b64_s0
    = (b64_run.1, inr (2%positive, iterations_of b64_run)) ∧
  self b64_run.1 = b64_attack ∧
  heap b64_s0 !! 1%positive = Some [b64_round (1 # 10)] ∧
  heap b64_run.1 !! 2%positive = Some [b64_round (4 # 10)] ∧
  final_active (seq 0 1) (iterations_of b64_run) = [] ∧
  ¬ b64_in_ball (eps b64_attack) (norm b64_attack)
      (b64_sub (b64_round (4 # 10)) (b64_round (1 # 10))) ∧
  ¬ b64_in_ball (eps b64_attack) (norm b64_attack)
      (b64_round (4 # 10) - b64_round (1 # 10))%Q.
Proof.
  split_and!;
    [ exact b64_projects_into_ball | vm_compute; reflexivity
    | vm_compute; reflexivity | reflexivity | vm_compute; reflexivity
    | vm_compute; reflexivity | |];
    unfold b64_in_ball; intros H; vm_compute in H; by apply H.
Qed.
